(** * ts_helper: the tree-sitter command line helper of the vim plugin

    A shallow embedding of [plugin/ts_helper.py] and the properties of its
    four views ([ast], [node_at], [symbols], [folds]).

    Conventions of the embedding.
    - A Python [str] is a list of code points ([N]); [len] is [length].
    - [bytes] is a list of [Byte.byte].
    - A syntax node is a record whose attributes may be absent, because the
      helper reads them defensively ([getattr] with a default, [try/except]).
      An absent [children] attribute is read as [[]] at each of its uses, so
      the field is a plain list; an absent [is_named] reads as [False].
    - The tree-sitter binding, [importlib] and the Python builtins that the
      helper calls are collected in the record [World], together with the
      depth of recursion that the interpreter leaves to a walk of the tree.
    - [main] is the function of that name after its call of [parse_args];
      [script] puts the import of the binding and [argparse] before it. *)

From Stdlib Require Import ZArith NArith List String Ascii Bool Lia.
From Stdlib Require Import Strings.Byte.
From Stdlib Require Import Permutation Sorted.
Import ListNotations.

Local Open Scope Z_scope.

(** ** Python values *)

Module Py.

Definition char := N.
Definition str := list char.
Definition bytes := list byte.

(** A literal of the source, given as an ASCII string. *)
Definition lit (s : string) : str :=
  List.map (fun a => N_of_ascii a) (list_ascii_of_string s).

Definition char_eqb (a b : char) : bool := N.eqb a b.

Fixpoint str_eqb (a b : str) : bool :=
  match a, b with
  | [], [] => true
  | x :: a', y :: b' => char_eqb x y && str_eqb a' b'
  | _, _ => false
  end.

(** [x in xs] for a collection of strings. *)
Definition str_in (x : str) (xs : list str) : bool := existsb (str_eqb x) xs.

Fixpoint starts_with (needle hay : str) : bool :=
  match needle, hay with
  | [], _ => true
  | x :: needle', y :: hay' => char_eqb x y && starts_with needle' hay'
  | _ :: _, [] => false
  end.

(** [needle in hay] for two strings: substring test. *)
Fixpoint contains (needle hay : str) : bool :=
  starts_with needle hay ||
  match hay with
  | [] => false
  | _ :: hay' => contains needle hay'
  end.

(** [len(x)] as a Python integer. *)
Definition len {A} (l : list A) : Z := Z.of_nat (List.length l).

(** [l[lo:hi]] with Python's treatment of negative and overlong bounds. *)
Definition clamp_index (n i : Z) : Z :=
  if i <? 0 then Z.max 0 (i + n) else Z.min i n.

Definition slice {A} (l : list A) (lo hi : Z) : list A :=
  let n := len l in
  let lo' := clamp_index n lo in
  let hi' := clamp_index n hi in
  firstn (Z.to_nat (hi' - lo')) (skipn (Z.to_nat lo') l).

(** [str.isspace] on one code point, the set used by [str.split()]. *)
Definition is_space (c : char) : bool :=
  ((9 <=? c) && (c <=? 13) || (28 <=? c) && (c <=? 32) ||
   (c =? 133) || (c =? 160) || (c =? 5760) ||
   (8192 <=? c) && (c <=? 8202) || (c =? 8232) || (c =? 8233) ||
   (c =? 8239) || (c =? 8287) || (c =? 12288))%N.

(** The pieces of [s] between consecutive whitespace characters; the head
    of the result is the piece that starts [s]. *)
Fixpoint pieces (s : str) : list str :=
  match s with
  | [] => [[]]
  | c :: s' =>
      if is_space c then [] :: pieces s'
      else match pieces s' with
           | w :: ws => (c :: w) :: ws
           | [] => [[c]]
           end
  end.

Definition nonempty (w : str) : bool :=
  match w with [] => false | _ :: _ => true end.

(** [s.split()]: the maximal whitespace-free runs of [s]. *)
Definition split (s : str) : list str := filter nonempty (pieces s).

(** [sep.join(ws)]. *)
Fixpoint join (sep : str) (ws : list str) : str :=
  match ws with
  | [] => []
  | [w] => w
  | w :: ws' => w ++ sep ++ join sep ws'
  end.

Definition space : char := 32%N.

(** [" ".join(s.split())]. *)
Definition normalize_ws (s : str) : str := join [space] (split s).

(** [s.replace(a, b)] for one-character [a] and [b]. *)
Definition replace_char (a b : char) (s : str) : str :=
  List.map (fun c => if char_eqb c a then b else c) s.

(** Exceptions: only the class tested by a handler and the message shown by
    [str(e)] are kept. Every class here derives from [Exception]. *)
Inductive exn_class :=
  TypeError | RuntimeError | AttributeError | ValueError | RecursionError
| OtherException.

Record exn := Raise { exn_cls : exn_class; exn_msg : str }.

Inductive result (A : Type) :=
| Ok (a : A)
| Raised (e : exn).
Arguments Ok {A} a.
Arguments Raised {A} e.

Definition bind {A B} (r : result A) (k : A -> result B) : result B :=
  match r with
  | Ok a => k a
  | Raised e => Raised e
  end.

Definition is_ok {A} (r : result A) : bool :=
  match r with Ok _ => true | Raised _ => false end.

End Py.

Import Py.

Notation "x <- r ;; k" := (Py.bind r (fun x => k))
  (at level 61, r at next level, right associativity).

(** ** JSON documents handed to [json.dumps] *)

#[warnings="-register-all"] Inductive json :=
| JNull
| JBool (b : bool)
| JInt (z : Z)
| JStr (s : str)
| JArr (items : list json)
| JObj (fields : list (string * json)).

(** ** Syntax nodes *)

Definition point := (Z * Z)%type.

#[warnings="-register-all"] Inductive Node := mkNode {
  type : option str;
  is_named : bool;
  start_point : option point;
  end_point : option point;
  start_byte : option Z;
  end_byte : option Z;
  children : list Node
}.

(** [getattr(o, name, default)] on an attribute that may be absent. *)
Definition getattr {A} (field : option A) (default : A) : A :=
  match field with Some v => v | None => default end.

(** Induction over a tree together with the children of each node. *)
Fixpoint Node_tree_ind (P : Node -> Prop)
    (step : forall n, Forall P (children n) -> P n) (n : Node) : P n :=
  step n
    ((fix all (cs : list Node) : Forall P cs :=
        match cs with
        | [] => Forall_nil P
        | c :: cs' => Forall_cons c (Node_tree_ind P step c) (all cs')
        end) (children n)).

(** The nodes of a tree in pre-order: a node, then the subtrees of its
    children from left to right. *)
Fixpoint preorder (n : Node) : list Node :=
  n :: flat_map preorder (children n).

(** The number of levels of a tree. *)
Fixpoint height (n : Node) : nat :=
  S (list_max (List.map height (children n))).

(** ** Recursion and the interpreter

    The three walks of the helper ([walk_node] and the two [visit]) call
    themselves once for each level of the tree, outside any [try], and the
    helper leaves the recursion limit of the interpreter as it is. A walk
    that would go deeper than the interpreter allows raises
    [RecursionError]. [depth] is the number of levels that a walk may still
    enter. *)

Definition recursion_error : exn :=
  Raise RecursionError (lit "maximum recursion depth exceeded").

(** The body of a [for] loop over the children that threads a value. *)
Fixpoint visit_each {A} (visit : Node -> A -> result A) (cs : list Node)
    (acc : A) : result A :=
  match cs with
  | [] => Ok acc
  | c :: cs' =>
      acc' <- visit c acc ;;
      visit_each visit cs' acc'
  end.

(** The body of a [for] loop over the children that appends a result. *)
Fixpoint render_each {B} (render : Node -> result B) (cs : list Node)
    : result (list B) :=
  match cs with
  | [] => Ok []
  | c :: cs' =>
      d <- render c ;;
      ds <- render_each render cs' ;;
      Ok (d :: ds)
  end.

(** ** Sorting by start point

    [out.sort(key=lambda n: (n.start_point[0], n.start_point[1]))]: the key
    of every element is computed first (an absent [start_point] raises
    [AttributeError]), then the list is sorted by key. Python's sort is
    stable, and a stable sort has one possible result, so a stable insertion
    sort stands for it. Keys are pairs compared lexicographically. *)

Definition key_lt (a b : point) : bool :=
  (fst a <? fst b) || ((fst a =? fst b) && (snd a <? snd b)).

Definition key_le (a b : point) : bool := negb (key_lt b a).

Definition key_eqb (a b : point) : bool :=
  (fst a =? fst b) && (snd a =? snd b).

Section StableSort.
Context {A : Type}.

(** [x] goes before the first element whose key is not below its own. *)
Fixpoint insert_keyed (x : point * A) (l : list (point * A)) :=
  match l with
  | [] => [x]
  | y :: l' =>
      if key_lt (fst y) (fst x) then y :: insert_keyed x l'
      else x :: y :: l'
  end.

Fixpoint sort_keyed (l : list (point * A)) : list (point * A) :=
  match l with
  | [] => []
  | x :: l' => insert_keyed x (sort_keyed l')
  end.
End StableSort.

Definition no_start_point : exn :=
  Raise AttributeError (lit "'Node' object has no attribute 'start_point'").

Definition sort_key (n : Node) : result point :=
  match start_point n with
  | Some (row, col) => Ok (row, col)
  | None => Raised no_start_point
  end.

Fixpoint keyed (l : list Node) : result (list (point * Node)) :=
  match l with
  | [] => Ok []
  | n :: l' =>
      k <- sort_key n ;;
      ks <- keyed l' ;;
      Ok ((k, n) :: ks)
  end.

Definition sort_by_start (l : list Node) : result (list Node) :=
  ks <- keyed l ;;
  Ok (List.map snd (sort_keyed ks)).

(** ** The collectors *)

Definition DEFAULT_SYMBOL_NODE_TYPES : list str :=
  List.map lit
    [ "function_definition"; "function_declaration"; "function_item";
      "method_definition"; "method_declaration"; "class_declaration";
      "class_definition"; "class_specifier"; "function"; "method" ]%string.

(** [ntype in symbol_types]; an absent type reads as [None], which is in no
    set of strings. *)
Definition is_symbol_type (symbol_types : list str) (n : Node) : bool :=
  match type n with
  | Some ntype => str_in ntype symbol_types
  | None => false
  end.

(** The inner [visit] of [collect_symbols], threading the list [out]. *)
Fixpoint visit_symbols (symbol_types : list str) (n : Node)
    (out : list Node) : list Node :=
  let out := if is_symbol_type symbol_types n then out ++ [n] else out in
  fold_left (fun acc c => visit_symbols symbol_types c acc) (children n) out.

Definition collect_symbols (root : Node) (symbol_types : option (list str))
    : result (list Node) :=
  let symbol_types := getattr symbol_types DEFAULT_SYMBOL_NODE_TYPES in
  sort_by_start (visit_symbols symbol_types root []).

(** [ep > sp] on the rows of a node that has both points. *)
Definition spans_lines (n : Node) : bool :=
  match start_point n, end_point n with
  | Some (sp, _), Some (ep, _) => sp <? ep
  | _, _ => false
  end.

(** The inner [visit] of [collect_folds]: a node without one of its points
    makes the visit return at once, before its children are looked at. *)
Fixpoint visit_folds (n : Node) (out : list Node) : list Node :=
  match start_point n, end_point n with
  | Some (sp, _), Some (ep, _) =>
      let out := if sp <? ep then out ++ [n] else out in
      fold_left (fun acc c => visit_folds c acc) (children n) out
  | _, _ => out
  end.

Definition collect_folds (root : Node) : result (list Node) :=
  sort_by_start (visit_folds root []).

(** The two collectors as the interpreter runs them, with the number of
    levels that the recursion may enter. [visit_symbols], [visit_folds] and
    the collectors above give the result of a walk that stays within that
    number. *)
Fixpoint visit_symbols_within (depth : nat) (symbol_types : list str)
    (n : Node) (out : list Node) : result (list Node) :=
  match depth with
  | O => Raised recursion_error
  | S depth' =>
      let out := if is_symbol_type symbol_types n then out ++ [n] else out in
      visit_each (visit_symbols_within depth' symbol_types) (children n) out
  end.

Definition collect_symbols_within (depth : nat) (root : Node)
    (symbol_types : option (list str)) : result (list Node) :=
  let symbol_types := getattr symbol_types DEFAULT_SYMBOL_NODE_TYPES in
  out <- visit_symbols_within depth symbol_types root [] ;;
  sort_by_start out.

Fixpoint visit_folds_within (depth : nat) (n : Node) (out : list Node)
    : result (list Node) :=
  match depth with
  | O => Raised recursion_error
  | S depth' =>
      match start_point n, end_point n with
      | Some (sp, _), Some (ep, _) =>
          let out := if sp <? ep then out ++ [n] else out in
          visit_each (visit_folds_within depth') (children n) out
      | _, _ => Ok out
      end
  end.

Definition collect_folds_within (depth : nat) (root : Node)
    : result (list Node) :=
  out <- visit_folds_within depth root [] ;;
  sort_by_start out.

(** ** The world outside the helper

    What the helper calls and does not define: [importlib], the tree-sitter
    binding ([Language], [Parser], [parse], the point lookup of a node) and
    the builtins [int] and [bytes.decode("utf8", "replace")]. A call either
    returns or raises. *)

Record World := {
  pyobj : Type;
  parser : Type;
  (** [importlib.import_module(name)] *)
  import_module : str -> result pyobj;
  (** [getattr(mod, "language", None)]; [None] is not callable *)
  getattr_language : pyobj -> option pyobj;
  callable : pyobj -> bool;
  (** [f()] *)
  call : pyobj -> result pyobj;
  (** [isinstance(o, Language)] *)
  isinstance_Language : pyobj -> bool;
  (** [Language(o)] *)
  Language : pyobj -> result pyobj;
  (** [Parser(lang)] *)
  Parser_with : pyobj -> result parser;
  (** [Parser()] *)
  Parser_empty : result parser;
  (** [p.set_language(lang)], giving the parser after the call *)
  set_language : parser -> pyobj -> result parser;
  (** [parser.parse(source).root_node]; [None] for a root that is falsy *)
  parse_root : parser -> bytes -> result (option Node);
  (** [root.named_descendant_for_point_range(a, b)] *)
  named_descendant_for_point_range :
    Node -> point -> point -> result (option Node);
  (** [int(s)] *)
  int : str -> result Z;
  (** [b.decode("utf8", "replace")], which does not raise *)
  decode_utf8_replace : bytes -> str;
  (** the number of levels of a tree that a recursive walk started by
      [main] can enter before the interpreter raises [RecursionError] *)
  max_walk_depth : nat
}.

Definition newline : str := [10%N].

Section Helper.

Variable W : World.

(** *** Language resolver and parser builder *)

Definition load_language_from_package (lang_name : str) : result (pyobj W) :=
  let mod_name := lit "tree_sitter_" ++ lang_name in
  match import_module W mod_name with
  | Raised e =>
      Raised (Raise RuntimeError
        (lit "Could not import language package '" ++ mod_name ++
         lit "'. Install it with: pip install " ++
         replace_char 95%N 45%N mod_name ++ newline ++
         lit "Underlying error: " ++ exn_msg e))
  | Ok mod_ =>
      match getattr_language W mod_ with
      | Some lang_fn =>
          if callable W lang_fn then
            lang_obj <- call W lang_fn ;;
            if isinstance_Language W lang_obj then Ok lang_obj
            else match Language W lang_obj with
                 | Ok wrapped => Ok wrapped
                 | Raised _ => Ok lang_obj
                 end
          else
            Raised (Raise RuntimeError
              (lit "Module " ++ mod_name ++ lit " does not expose language()"))
      | None =>
          Raised (Raise RuntimeError
            (lit "Module " ++ mod_name ++ lit " does not expose language()"))
      end
  end.

Definition load_language (lang_name : str) : result (pyobj W) :=
  load_language_from_package lang_name.

Definition make_parser_for_language (lang : pyobj W) : result (parser W) :=
  match Parser_with W lang with
  | Ok p => Ok p
  | Raised e =>
      match exn_cls e with
      | TypeError =>
          p <- Parser_empty W ;;
          set_language W p lang
      | _ =>
          p <- Parser_empty W ;;
          set_language W p lang
      end
  end.

(** *** Rendering one node *)

Definition jpoint (row col : Z) : json := JArr [JInt row; JInt col].

Definition jtype (n : Node) : json :=
  match type n with Some t => JStr t | None => JNull end.

(** The [try] that unpacks both points: one absent point zeroes all four. *)
Definition unpack_points (n : Node) : Z * Z * Z * Z :=
  match start_point n, end_point n with
  | Some (srow, scol), Some (erow, ecol) => (srow, scol, erow, ecol)
  | _, _ => (0, 0, 0, 0)
  end.

(** The text item. Slicing, decoding with replacement, splitting and joining
    do not raise on these values, so the handler that would set the text to
    the empty string is never entered. *)
Definition node_text (n : Node) (source_bytes : bytes) (max_text : Z) : str :=
  let text :=
    decode_utf8_replace W
      (slice source_bytes (getattr (start_byte n) 0) (getattr (end_byte n) 0)) in
  let text := normalize_ws text in
  if len text >? max_text then slice text 0 (max_text - 3) ++ lit "..."
  else text.

Definition node_fields (n : Node) : list (string * json) :=
  let '(srow, scol, erow, ecol) := unpack_points n in
  [ ("type", jtype n);
    ("named", JBool (is_named n));
    ("start_point", jpoint srow scol);
    ("end_point", jpoint erow ecol);
    ("start_byte", JInt (getattr (start_byte n) 0));
    ("end_byte", JInt (getattr (end_byte n) 0)) ]%string.

(** The dictionary built by [node_to_dict], as its items in insertion
    order. *)
Definition node_to_dict (n : Node) (source_bytes : bytes)
    (include_text : bool) (max_text : Z) : list (string * json) :=
  node_fields n ++
  (if include_text
   then [("text"%string, JStr (node_text n source_bytes max_text))]
   else []).

Definition default_max_text : Z := 120.

Fixpoint walk_node (n : Node) (source_bytes : bytes) : json :=
  let d := node_to_dict n source_bytes true default_max_text in
  let children := List.map (fun child => walk_node child source_bytes)
                    (children n) in
  JObj (d ++ [("children"%string, JArr children)]).

(** [walk_node] as the interpreter runs it; [walk_node] above gives the
    document of a walk that stays within [depth] levels. *)
Fixpoint walk_node_within (depth : nat) (n : Node) (source_bytes : bytes)
    : result json :=
  match depth with
  | O => Raised recursion_error
  | S depth' =>
      let d := node_to_dict n source_bytes true default_max_text in
      children <-
        render_each (fun child => walk_node_within depth' child source_bytes)
          (children n) ;;
      Ok (JObj (d ++ [("children"%string, JArr children)]))
  end.

Definition find_smallest_named_at (root : Node) (row col : Z) : option Node :=
  match named_descendant_for_point_range W root (row, col) (row, col) with
  | Ok r => r
  | Raised _ => None
  end.

End Helper.

(** ** The command line program *)

Inductive command := ast | node_at | symbols | folds.

(** The namespace returned by [argparse]: [--lang], the command and the
    remaining positional arguments. *)
Record Namespace := {
  lang : str;
  cmd : command;
  args : list str
}.

(** How the process ends: [sys.exit(code)] or a return from [main] (code 0)
    with what was printed on the two streams, or an exception that nothing
    caught (the interpreter prints a traceback and exits with status 1). *)
Inductive outcome :=
| Exited (code : Z) (out : list json) (err : list str)
| Uncaught (e : exn).

Definition exit_code (o : outcome) : Z :=
  match o with
  | Exited code _ _ => code
  | Uncaught _ => 1
  end.

Definition stdout (o : outcome) : list json :=
  match o with
  | Exited _ out _ => out
  | Uncaught _ => []
  end.

Definition printed (j : json) : outcome := Exited 0 [j] [].

Definition no_end_point : exn :=
  Raise AttributeError (lit "'Node' object has no attribute 'end_point'").

Section Commands.

Variable W : World.

(** The loop of the [symbols] command over the direct children of a symbol
    node. A child whose type matches and whose bytes can be read ends the
    loop; when reading raises, [name] is reset and the loop goes on. *)
Fixpoint symbol_name (cs : list Node) (source_bytes : bytes) : option str :=
  match cs with
  | [] => None
  | c :: cs' =>
      let ctype := getattr (type c) [] in
      if contains (lit "name") ctype || contains (lit "identifier") ctype
         || str_eqb ctype (lit "identifier")
      then
        match start_byte c, end_byte c with
        | Some sb, Some eb =>
            let name := decode_utf8_replace W (slice source_bytes sb eb) in
            Some (normalize_ws name)
        | _, _ => symbol_name cs' source_bytes
        end
      else symbol_name cs' source_bytes
  end.

Definition jname (name : option str) : json :=
  match name with Some s => JStr s | None => JNull end.

Definition symbol_record (n : Node) (source_bytes : bytes) : json :=
  let name := symbol_name (children n) source_bytes in
  let d := node_to_dict W n source_bytes false default_max_text in
  JObj (d ++ [("name"%string, jname name)]).

(** The dictionary of the [folds] command, which reads both points without
    a guard. *)
Definition fold_record (n : Node) : result json :=
  match start_point n, end_point n with
  | Some (srow, scol), Some (erow, ecol) =>
      Ok (JObj [ ("type", jtype n);
                 ("start_point", jpoint srow scol);
                 ("end_point", jpoint erow ecol);
                 ("start_byte", JInt (getattr (start_byte n) 0));
                 ("end_byte", JInt (getattr (end_byte n) 0)) ]%string)
  | None, _ => Raised no_start_point
  | Some _, None => Raised no_end_point
  end.

Fixpoint fold_records (nodes : list Node) : result (list json) :=
  match nodes with
  | [] => Ok []
  | n :: nodes' =>
      d <- fold_record n ;;
      ds <- fold_records nodes' ;;
      Ok (d :: ds)
  end.

(** [sys.stdin.buffer.read() or b""], and [b""] when reading raises. *)
Definition read_stdin (stdin : result bytes) : bytes :=
  match stdin with
  | Ok b => match b with [] => [] | _ :: _ => b end
  | Raised _ => []
  end.

(** [parser.parse(source_bytes).root_node], and [None] when that raises. *)
Definition acquire_root (p : parser W) (source_bytes : bytes) : option Node :=
  match parse_root W p source_bytes with
  | Ok root => root
  | Raised _ => None
  end.

Definition run_ast (root : option Node) (source_bytes : bytes) : outcome :=
  match root with
  | None => printed (JObj [])
  | Some root =>
      match walk_node_within W (max_walk_depth W) root source_bytes with
      | Raised e => Uncaught e
      | Ok doc => printed doc
      end
  end.

Definition run_node_at (a : list str) (root : option Node)
    (source_bytes : bytes) : outcome :=
  match a with
  | row_arg :: col_arg :: _ =>
      match (row <- int W row_arg ;; col <- int W col_arg ;; Ok (row, col)) with
      | Raised _ => Exited 8 [] [lit "Invalid ROW/COL" ++ newline]
      | Ok (row, col) =>
          match root with
          | None => printed (JObj [])
          | Some root =>
              match find_smallest_named_at W root row col with
              | None => printed (JObj [])
              | Some node =>
                  let d := node_to_dict W node source_bytes true
                             default_max_text in
                  printed
                    (JObj (d ++ [("children_count"%string,
                                  JInt (len (children node)))]))
              end
          end
      end
  | _ => Exited 7 [] [lit "node_at requires ROW COL" ++ newline]
  end.

Definition run_symbols (root : option Node) (source_bytes : bytes)
    : outcome :=
  match root with
  | None => printed (JArr [])
  | Some root =>
      match collect_symbols_within (max_walk_depth W) root None with
      | Raised e => Uncaught e
      | Ok syms =>
          printed (JArr (List.map (fun n => symbol_record n source_bytes) syms))
      end
  end.

Definition run_folds (root : option Node) : outcome :=
  match root with
  | None => printed (JArr [])
  | Some root =>
      match (nodes <- collect_folds_within (max_walk_depth W) root ;;
             fold_records nodes) with
      | Raised e => Uncaught e
      | Ok out => printed (JArr out)
      end
  end.

Definition main (a : Namespace) (stdin : result bytes) : outcome :=
  match load_language W (lang a) with
  | Raised e =>
      Exited 4 [] [lit "Error loading language: " ++ exn_msg e ++ newline]
  | Ok lang =>
      match make_parser_for_language W lang with
      | Raised e =>
          Exited 5 [] [lit "Failed to construct parser: " ++ exn_msg e ++ newline]
      | Ok parser =>
          let source_bytes := read_stdin stdin in
          let root := acquire_root parser source_bytes in
          match cmd a with
          | ast => run_ast root source_bytes
          | node_at => run_node_at (args a) root source_bytes
          | symbols => run_symbols root source_bytes
          | folds => run_folds root
          end
      end
  end.

End Commands.

(** * Properties *)

(** ** Traversals *)

Definition has_both_points (n : Node) : bool :=
  match start_point n, end_point n with
  | Some _, Some _ => true
  | _, _ => false
  end.

(** Every node of the tree carries both of its points, as the nodes of a
    tree built by the parser do. *)
Definition has_points (root : Node) : bool :=
  forallb has_both_points (preorder root).

Lemma fold_left_visit {A B} (f : A -> list B -> list B) (cs : list A) :
  Forall (fun c => forall out, f c out = out ++ f c []) cs ->
  forall acc,
    fold_left (fun acc c => f c acc) cs acc
    = acc ++ flat_map (fun c => f c []) cs.
Proof.
  induction 1 as [|c cs Hc _ IH]; intros acc; simpl.
  - now rewrite app_nil_r.
  - rewrite IH, Hc. now rewrite <- app_assoc.
Qed.

Lemma flat_map_ext_Forall {A B} (f g : A -> list B) (l : list A) :
  Forall (fun a => f a = g a) l -> flat_map f l = flat_map g l.
Proof.
  induction 1 as [|a l Ha _ IH]; simpl; [reflexivity|].
  now rewrite Ha, IH.
Qed.

Lemma filter_flat_map {A B} (p : B -> bool) (f : A -> list B) (l : list A) :
  filter p (flat_map f l) = flat_map (fun a => filter p (f a)) l.
Proof.
  induction l as [|a l IH]; simpl; [reflexivity|].
  now rewrite filter_app, IH.
Qed.

Lemma visit_symbols_acc (st : list str) (n : Node) :
  forall out,
    visit_symbols st n out = out ++ filter (is_symbol_type st) (preorder n).
Proof.
  induction n as [n IH] using Node_tree_ind; intros out.
  assert (Hacc : Forall (fun c => forall out,
            visit_symbols st c out = out ++ visit_symbols st c []) (children n)).
  { eapply Forall_impl; [|exact IH]. intros c Hc o.
    rewrite (Hc o), (Hc []). reflexivity. }
  destruct n as [ty nm sp ep sb eb cs]; simpl in *.
  rewrite (fold_left_visit (visit_symbols st) cs Hacc).
  rewrite filter_flat_map.
  rewrite (flat_map_ext_Forall (fun c => visit_symbols st c [])
             (fun c => filter (is_symbol_type st) (preorder c))).
  2:{ eapply Forall_impl; [|exact IH]. intros c Hc. now rewrite (Hc []). }
  destruct (is_symbol_type st _); simpl.
  - now rewrite <- app_assoc.
  - reflexivity.
Qed.

(** What [visit] of [collect_folds] appends, as a function of the node. *)
Fixpoint folds_of (n : Node) : list Node :=
  match start_point n, end_point n with
  | Some (sp, _), Some (ep, _) =>
      (if sp <? ep then [n] else []) ++ flat_map folds_of (children n)
  | _, _ => []
  end.

Lemma visit_folds_acc (n : Node) :
  forall out, visit_folds n out = out ++ folds_of n.
Proof.
  induction n as [n IH] using Node_tree_ind; intros out.
  assert (Hacc : Forall (fun c => forall out,
            visit_folds c out = out ++ visit_folds c []) (children n)).
  { eapply Forall_impl; [|exact IH]. intros c Hc o.
    rewrite (Hc o), (Hc []). reflexivity. }
  destruct n as [ty nm sp ep sb eb cs]; simpl in *.
  destruct sp as [[sr sc]|]; [|now rewrite app_nil_r].
  destruct ep as [[er ec]|]; [|now rewrite app_nil_r].
  rewrite (fold_left_visit visit_folds cs Hacc).
  rewrite (flat_map_ext_Forall (fun c => visit_folds c []) folds_of).
  2:{ eapply Forall_impl; [|exact IH]. intros c Hc. now rewrite (Hc []). }
  destruct (sr <? er); simpl.
  - now rewrite <- app_assoc.
  - reflexivity.
Qed.

Lemma spans_lines_has_points (n : Node) :
  spans_lines n = true -> has_both_points n = true.
Proof.
  unfold spans_lines, has_both_points.
  destruct (start_point n) as [[? ?]|], (end_point n) as [[? ?]|];
    intros; congruence.
Qed.

Lemma folds_of_sound (n : Node) :
  Forall (fun m => spans_lines m = true) (folds_of n).
Proof.
  induction n as [n IH] using Node_tree_ind.
  destruct n as [ty nm sp ep sb eb cs]; simpl in *.
  destruct sp as [[sr sc]|]; [|constructor].
  destruct ep as [[er ec]|]; [|constructor].
  apply Forall_app; split.
  - destruct (sr <? er) eqn:E; constructor; [|constructor].
    unfold spans_lines; simpl. exact E.
  - apply Forall_flat_map.
    eapply Forall_impl; [|exact IH]. auto.
Qed.

Lemma forallb_flat_map {A B} (p : B -> bool) (f : A -> list B) (l : list A) :
  forallb p (flat_map f l) = forallb (fun a => forallb p (f a)) l.
Proof.
  induction l as [|a l IH]; simpl; [reflexivity|].
  now rewrite forallb_app, IH.
Qed.

Lemma folds_of_complete (n : Node) :
  has_points n = true -> folds_of n = filter spans_lines (preorder n).
Proof.
  unfold has_points.
  induction n as [n IH] using Node_tree_ind.
  destruct n as [ty nm sp ep sb eb cs]; simpl in *.
  rewrite forallb_flat_map, filter_flat_map.
  intros H. apply andb_prop in H as [Hn Hcs].
  unfold has_both_points in Hn; simpl in Hn.
  destruct sp as [[sr sc]|]; [|discriminate].
  destruct ep as [[er ec]|]; [|discriminate].
  unfold spans_lines at 1; simpl.
  rewrite (flat_map_ext_Forall folds_of
             (fun c => filter spans_lines (preorder c))).
  - destruct (sr <? er); reflexivity.
  - rewrite forallb_forall in Hcs. rewrite Forall_forall in IH |- *.
    intros c Hc. apply IH; auto.
Qed.

(** ** The sort *)

(** Lexicographic order on (row, column). *)
Definition point_le (a b : point) : Prop :=
  fst a < fst b \/ (fst a = fst b /\ snd a <= snd b).

Lemma key_le_spec (a b : point) : key_le a b = true <-> point_le a b.
Proof.
  unfold key_le, key_lt, point_le. destruct a as [r1 c1], b as [r2 c2]; simpl.
  rewrite negb_true_iff, orb_false_iff, andb_false_iff.
  rewrite !Z.ltb_ge, Z.eqb_neq. lia.
Qed.

Lemma key_lt_le (a b : point) : key_lt a b = true -> key_le a b = true.
Proof.
  unfold key_le, key_lt. destruct a as [r1 c1], b as [r2 c2]; simpl.
  rewrite negb_true_iff, orb_true_iff, orb_false_iff, !andb_true_iff,
    andb_false_iff, !Z.ltb_lt, !Z.ltb_ge, Z.eqb_eq, Z.eqb_neq. lia.
Qed.

Lemma key_le_trans (a b c : point) :
  key_le a b = true -> key_le b c = true -> key_le a c = true.
Proof. rewrite !key_le_spec. unfold point_le. lia. Qed.

Lemma key_eqb_eq (a b : point) : key_eqb a b = true <-> a = b.
Proof.
  unfold key_eqb. destruct a as [r1 c1], b as [r2 c2]; simpl.
  rewrite andb_true_iff, !Z.eqb_eq. split.
  - intros [-> ->]. reflexivity.
  - intros [= -> ->]. auto.
Qed.

Lemma key_lt_irrefl (a : point) : key_lt a a = false.
Proof.
  unfold key_lt. rewrite Z.ltb_irrefl, Z.ltb_irrefl. simpl.
  now rewrite andb_false_r.
Qed.

Section StableSortFacts.
Context {A : Type}.
Implicit Types (x y : point * A) (l : list (point * A)).

Definition keyed_le x y : Prop := key_le (fst x) (fst y) = true.
Definition has_key (k : point) x : bool := key_eqb (fst x) k.

Lemma insert_keyed_perm x l : Permutation (insert_keyed x l) (x :: l).
Proof.
  induction l as [|y l IH]; simpl; [reflexivity|].
  destruct (key_lt (fst y) (fst x)); [|reflexivity].
  rewrite IH. apply perm_swap.
Qed.

Lemma sort_keyed_perm l : Permutation (sort_keyed l) l.
Proof.
  induction l as [|x l IH]; simpl; [reflexivity|].
  rewrite insert_keyed_perm. now constructor.
Qed.

Lemma insert_keyed_sorted x l :
  StronglySorted keyed_le l -> StronglySorted keyed_le (insert_keyed x l).
Proof.
  induction 1 as [|y l Hl IH Hy]; simpl.
  - repeat constructor.
  - destruct (key_lt (fst y) (fst x)) eqn:E.
    + constructor; [exact IH|].
      rewrite insert_keyed_perm. constructor; [|exact Hy].
      now apply key_lt_le.
    + assert (Hxy : keyed_le x y).
      { unfold keyed_le, key_le. now rewrite E. }
      constructor; [now constructor|].
      constructor; [exact Hxy|].
      eapply Forall_impl; [|exact Hy].
      intros z Hz. unfold keyed_le in *. eapply key_le_trans; eauto.
Qed.

Lemma sort_keyed_sorted l : StronglySorted keyed_le (sort_keyed l).
Proof.
  induction l as [|x l IH]; simpl; [constructor|].
  now apply insert_keyed_sorted.
Qed.

(** Stability: the elements of one key keep their order. *)
Lemma insert_keyed_stable k x l :
  filter (has_key k) (insert_keyed x l) = filter (has_key k) (x :: l).
Proof.
  induction l as [|y l IH]; [reflexivity|].
  cbn [insert_keyed].
  destruct (key_lt (fst y) (fst x)) eqn:E; [|reflexivity].
  cbn [filter] in *. rewrite IH.
  destruct (has_key k y) eqn:Ey, (has_key k x) eqn:Ex; try reflexivity.
  unfold has_key in *. apply key_eqb_eq in Ey, Ex.
  rewrite Ey, Ex, key_lt_irrefl in E. discriminate.
Qed.

Lemma sort_keyed_stable k l :
  filter (has_key k) (sort_keyed l) = filter (has_key k) l.
Proof.
  induction l as [|x l IH]; [reflexivity|].
  cbn [sort_keyed]. rewrite insert_keyed_stable.
  cbn [filter]. now rewrite IH.
Qed.
End StableSortFacts.

(** Order of two nodes by their start points, both present. *)
Definition start_le (a b : Node) : Prop :=
  exists ka kb,
    start_point a = Some ka /\ start_point b = Some kb /\ point_le ka kb.

Definition starts_at (k : point) (n : Node) : bool :=
  match start_point n with
  | Some p => key_eqb p k
  | None => false
  end.

Definition key_agrees (kn : point * Node) : Prop :=
  start_point (snd kn) = Some (fst kn).

Lemma sort_key_ok (n : Node) (k : point) :
  sort_key n = Ok k <-> start_point n = Some k.
Proof.
  unfold sort_key. destruct (start_point n) as [[r c]|]; simpl; split;
    intros H; inversion H; reflexivity.
Qed.

Lemma keyed_inv (l : list Node) :
  forall ks, keyed l = Ok ks -> List.map snd ks = l /\ Forall key_agrees ks.
Proof.
  induction l as [|n l IH]; simpl; intros ks H.
  - inversion H. split; constructor.
  - destruct (sort_key n) as [k|] eqn:Ek; [|discriminate]. simpl in H.
    destruct (keyed l) as [ks'|]; [|discriminate]. simpl in H.
    inversion H; subst. destruct (IH ks' eq_refl) as [Hm Hf].
    split; simpl; [now rewrite Hm|].
    constructor; [|exact Hf]. now apply sort_key_ok.
Qed.

Lemma keyed_total (l : list Node) :
  Forall (fun n => start_point n <> None) l -> exists ks, keyed l = Ok ks.
Proof.
  induction 1 as [|n l Hn _ [ks IH]]; simpl.
  - now eexists.
  - unfold sort_key. destruct (start_point n) as [[r c]|]; [|congruence].
    simpl. rewrite IH. simpl. now eexists.
Qed.

Lemma map_snd_sorted (ks : list (point * Node)) :
  Forall key_agrees ks ->
  StronglySorted keyed_le ks -> StronglySorted start_le (List.map snd ks).
Proof.
  intros Hf Hs. induction Hs as [|kn ks Hs IH Hall]; simpl; [constructor|].
  inversion Hf as [|? ? Hkn Hks]; subst.
  constructor; [now apply IH|].
  rewrite Forall_map. rewrite Forall_forall in Hall, Hks |- *.
  intros kn' Hin. exists (fst kn), (fst kn').
  repeat split; [exact Hkn|now apply Hks|].
  apply key_le_spec. now apply Hall.
Qed.

Lemma map_snd_filter (k : point) (ks : list (point * Node)) :
  Forall key_agrees ks ->
  filter (starts_at k) (List.map snd ks) = List.map snd (filter (has_key k) ks).
Proof.
  induction 1 as [|kn ks Hkn _ IH]; simpl; [reflexivity|].
  unfold starts_at at 1, has_key at 1. rewrite Hkn.
  destruct (key_eqb (fst kn) k); simpl; now rewrite IH.
Qed.

(** The sort returns a stable, sorted rearrangement of its argument. *)
Lemma sort_by_start_spec (l out : list Node) :
  sort_by_start l = Ok out ->
  Permutation out l /\ StronglySorted start_le out /\
  forall k, filter (starts_at k) out = filter (starts_at k) l.
Proof.
  unfold sort_by_start. destruct (keyed l) as [ks|] eqn:E; [|discriminate].
  simpl. intros [= <-]. destruct (keyed_inv l ks E) as [Hm Hf].
  assert (Hf' : Forall key_agrees (sort_keyed ks)).
  { eapply Permutation_Forall; [|exact Hf].
    symmetry. apply sort_keyed_perm. }
  repeat split.
  - rewrite <- Hm. apply Permutation_map, sort_keyed_perm.
  - apply map_snd_sorted; [exact Hf'|apply sort_keyed_sorted].
  - intros k. rewrite map_snd_filter by exact Hf'.
    rewrite sort_keyed_stable, <- map_snd_filter by exact Hf.
    now rewrite Hm.
Qed.

Lemma sort_by_start_total (l : list Node) :
  Forall (fun n => start_point n <> None) l ->
  exists out, sort_by_start l = Ok out.
Proof.
  intros H. destruct (keyed_total l H) as [ks E].
  unfold sort_by_start. rewrite E. simpl. now eexists.
Qed.

(** ** Reading the printed documents back *)

Fixpoint assoc (k : string) (fs : list (string * json)) : option json :=
  match fs with
  | [] => None
  | (k', v) :: fs' => if String.eqb k k' then Some v else assoc k fs'
  end.

Definition record_point (k : string) (j : json) : option point :=
  match j with
  | JObj fs =>
      match assoc k fs with
      | Some (JArr [JInt row; JInt col]) => Some (row, col)
      | _ => None
      end
  | _ => None
  end.

Definition record_str (k : string) (j : json) : option str :=
  match j with
  | JObj fs =>
      match assoc k fs with
      | Some (JStr s) => Some s
      | _ => None
      end
  | _ => None
  end.

(** Two printed records in ascending order of [start_point]. *)
Definition record_le (a b : json) : Prop :=
  exists ka kb,
    record_point "start_point" a = Some ka /\
    record_point "start_point" b = Some kb /\ point_le ka kb.

(** A printed record spans several lines. *)
Definition record_spans_lines (j : json) : Prop :=
  exists sp ep,
    record_point "start_point" j = Some sp /\
    record_point "end_point" j = Some ep /\ fst sp < fst ep.

Definition record_int (k : string) (j : json) : option Z :=
  match j with
  | JObj fs =>
      match assoc k fs with
      | Some (JInt z) => Some z
      | _ => None
      end
  | _ => None
  end.

Definition record_bool (k : string) (j : json) : option bool :=
  match j with
  | JObj fs =>
      match assoc k fs with
      | Some (JBool b) => Some b
      | _ => None
      end
  | _ => None
  end.

(** A printed record shows a node: its [type] item is the type of the node
    (and no string when the node has none), its two point items are the
    points of the node and its two offset items the byte offsets of the
    node, 0 standing for an absent offset. *)
Definition shows (j : json) (n : Node) : Prop :=
  record_str "type" j = type n /\
  record_point "start_point" j = start_point n /\
  record_point "end_point" j = end_point n /\
  record_int "start_byte" j = Some (getattr (start_byte n) 0) /\
  record_int "end_byte" j = Some (getattr (end_byte n) 0).

Definition record_starts_at (k : point) (j : json) : bool :=
  match record_point "start_point" j with
  | Some p => key_eqb p k
  | None => false
  end.

Definition not_children (kv : string * json) : bool :=
  negb (String.eqb (fst kv) "children").

(** The node set of the document printed by [ast]: every object of the
    nested document, without its [children] item, parents first. *)
Fixpoint ast_entries (j : json) : list json :=
  match j with
  | JObj fs =>
      JObj (filter not_children fs) ::
      flat_map
        (fun kv =>
           match kv with
           | (k, JArr items) =>
               if String.eqb k "children" then flat_map ast_entries items
               else []
           | _ => []
           end) fs
  | _ => []
  end.

(** The stages before the view: language, parser, input, parse. *)
Definition reaches (W : World) (a : Namespace) (stdin : result bytes)
    (root : option Node) (source_bytes : bytes) : Prop :=
  exists l p,
    load_language W (lang a) = Ok l /\
    make_parser_for_language W l = Ok p /\
    source_bytes = read_stdin stdin /\
    root = acquire_root W p source_bytes.

Definition run_command (W : World) (a : Namespace) (root : option Node)
    (source_bytes : bytes) : outcome :=
  match cmd a with
  | ast => run_ast W root source_bytes
  | node_at => run_node_at W (args a) root source_bytes
  | symbols => run_symbols W root source_bytes
  | folds => run_folds W root
  end.

Lemma main_reaches W a stdin root source_bytes :
  reaches W a stdin root source_bytes ->
  main W a stdin = run_command W a root source_bytes.
Proof.
  intros (l & p & Hl & Hp & -> & ->). unfold main, run_command.
  now rewrite Hl, Hp.
Qed.

(** ** A concrete world

    Models of the two builtins, a lookup of the smallest named node at a
    point and a world built from them. The parser of a world is given as a
    function from the input to the root it yields. *)

Module Demo.

Definition replacement : char := 65533%N.

Definition in_range (lo hi : N) (b : byte) : bool :=
  ((lo <=? Byte.to_N b) && (Byte.to_N b <=? hi))%N.

Definition low_bits (b : byte) : N := (Byte.to_N b mod 64)%N.

(** Bounds of the second byte of a sequence that starts with [c0]. *)
Definition second_range (c0 : N) : N * N :=
  (if c0 =? 224 then (160, 191)
   else if c0 =? 237 then (128, 159)
   else if c0 =? 240 then (144, 191)
   else if c0 =? 244 then (128, 143)
   else (128, 191))%N.

Definition second_ok (c0 : N) (b : byte) : bool :=
  in_range (fst (second_range c0)) (snd (second_range c0)) b.

(** [bytes.decode("utf8", "replace")]: every maximal ill-formed part of the
    input becomes one U+FFFD. *)
Fixpoint utf8_replace (bs : bytes) : str :=
  match bs with
  | [] => []
  | b0 :: r0 =>
      let c0 := Byte.to_N b0 in
      if (c0 <? 128)%N then c0 :: utf8_replace r0
      else if (c0 <? 194)%N then replacement :: utf8_replace r0
      else if (c0 <? 224)%N then
        match r0 with
        | [] => [replacement]
        | b1 :: r1 =>
            if in_range 128 191 b1
            then ((c0 mod 32) * 64 + low_bits b1)%N :: utf8_replace r1
            else replacement :: utf8_replace r0
        end
      else if (c0 <? 240)%N then
        match r0 with
        | [] => [replacement]
        | b1 :: r1 =>
            if second_ok c0 b1 then
              match r1 with
              | [] => [replacement]
              | b2 :: r2 =>
                  if in_range 128 191 b2
                  then ((c0 mod 16) * 4096 + low_bits b1 * 64 + low_bits b2)%N
                       :: utf8_replace r2
                  else replacement :: utf8_replace r1
              end
            else replacement :: utf8_replace r0
        end
      else if (c0 <? 245)%N then
        match r0 with
        | [] => [replacement]
        | b1 :: r1 =>
            if second_ok c0 b1 then
              match r1 with
              | [] => [replacement]
              | b2 :: r2 =>
                  if in_range 128 191 b2 then
                    match r2 with
                    | [] => [replacement]
                    | b3 :: r3 =>
                        if in_range 128 191 b3
                        then ((c0 mod 8) * 262144 + low_bits b1 * 4096
                              + low_bits b2 * 64 + low_bits b3)%N
                             :: utf8_replace r3
                        else replacement :: utf8_replace r2
                    end
                  else replacement :: utf8_replace r1
              end
            else replacement :: utf8_replace r0
        end
      else replacement :: utf8_replace r0
  end.

(** The whitespace that [int] skips around an ASCII literal. *)
Definition ascii_space (c : char) : bool :=
  ((9 <=? c) && (c <=? 13) || (c =? 32))%N.

Fixpoint lstrip (s : str) : str :=
  match s with
  | c :: s' => if ascii_space c then lstrip s' else s
  | [] => []
  end.

Definition strip (s : str) : str := rev (lstrip (rev (lstrip s))).

Definition is_digit (c : char) : bool := ((48 <=? c) && (c <=? 57))%N.

(** Decimal digits with single underscores between digits. *)
Fixpoint digits_value (s : str) (acc : Z) (after_digit : bool) : option Z :=
  match s with
  | [] => if after_digit then Some acc else None
  | c :: s' =>
      if is_digit c
      then digits_value s' (acc * 10 + (Z.of_N c - 48)) true
      else if ((c =? 95)%N && after_digit)%bool
      then digits_value s' acc false
      else None
  end.

Definition invalid_literal (s : str) : exn :=
  Raise ValueError (lit "invalid literal for int() with base 10: " ++ s).

Definition too_many_digits : exn :=
  Raise ValueError
    (lit "Exceeds the limit (4300 digits) for integer string conversion").

(** [int(s)] on a string of ASCII characters: surrounding whitespace, a
    sign, decimal digits with single underscores between them, and at most
    4300 digits. *)
Definition int_ascii (s : str) : result Z :=
  let body := strip s in
  let signed :=
    match body with
    | 45%N :: ds => option_map Z.opp (digits_value ds 0 false)
    | 43%N :: ds => digits_value ds 0 false
    | _ => digits_value body 0 false
    end in
  match signed with
  | Some z =>
      if (4300 <? List.length (filter is_digit body))%nat
      then Raised too_many_digits
      else Ok z
  | None => Raised (invalid_literal s)
  end.

(** The lookup of the binding for a range that is one point: from the
    root, go into the first child that ends after the point, as long as
    that child does not start after it; the answer is the last named node
    entered, or the root when none was. *)
Fixpoint named_at (n : Node) (p : point) (last : Node) : Node :=
  (fix scan (cs : list Node) : Node :=
     match cs with
     | [] => last
     | c :: cs' =>
         if key_le (getattr (end_point c) (0, 0)) p then scan cs'
         else if key_lt p (getattr (start_point c) (0, 0)) then last
         else named_at c p (if is_named c then c else last)
     end) (children n).

Definition no_module (name : str) : exn :=
  Raise OtherException (lit "No module named '" ++ name ++ lit "'").

(** A world with the grammar package [tree_sitter_python] installed, whose
    [language()] returns a [Language] and whose [Parser] takes the grammar
    as argument. *)
Definition world (parse : bytes -> result (option Node)) : World := {|
  pyobj := N;
  parser := N;
  import_module := fun name =>
    if str_eqb name (lit "tree_sitter_python") then Ok 1%N
    else Raised (no_module name);
  getattr_language := fun _ => Some 2%N;
  callable := fun _ => true;
  call := fun _ => Ok 3%N;
  isinstance_Language := fun _ => true;
  Language := fun o => Ok o;
  Parser_with := fun _ => Ok 4%N;
  Parser_empty := Ok 5%N;
  set_language := fun p _ => Ok p;
  parse_root := fun _ source => parse source;
  named_descendant_for_point_range :=
    fun root a _ => Ok (Some (named_at root a root));
  int := int_ascii;
  decode_utf8_replace := utf8_replace;
  (* the default limit of 1000 frames, less the frames of the module, of
     [main] and of the collector or of [node_to_dict] *)
  max_walk_depth := 997
|}.

Definition leaf (t : string) (named : bool) (s e : point) (sb eb : Z) : Node :=
  mkNode (Some (lit t)) named (Some s) (Some e) (Some sb) (Some eb) [].

Definition inner (t : string) (s e : point) (sb eb : Z) (cs : list Node)
    : Node :=
  mkNode (Some (lit t)) true (Some s) (Some e) (Some sb) (Some eb) cs.

(** The source [def foo():\n    pass\n] and its tree. *)
Definition foo_source : bytes :=
  list_byte_of_string "def foo():" ++ [x0a] ++
  list_byte_of_string "    pass" ++ [x0a].

Definition foo_function : Node :=
  inner "function_definition" (0, 0) (1, 8) 0 19
    [ leaf "def" false (0, 0) (0, 3) 0 3;
      leaf "identifier" true (0, 4) (0, 7) 4 7;
      inner "parameters" (0, 7) (0, 9) 7 9
        [ leaf "(" false (0, 7) (0, 8) 7 8;
          leaf ")" false (0, 8) (0, 9) 8 9 ];
      leaf ":" false (0, 9) (0, 10) 9 10;
      inner "block" (1, 4) (1, 8) 15 19
        [ inner "pass_statement" (1, 4) (1, 8) 15 19
            [ leaf "pass" false (1, 4) (1, 8) 15 19 ] ] ].

Definition foo_tree : Node :=
  inner "module" (0, 0) (2, 0) 0 20 [foo_function].

(** The root that the binding gives for an empty input. *)
Definition empty_module : Node := inner "module" (0, 0) (0, 0) 0 0 [].

Definition foo_parse (source : bytes) : result (option Node) :=
  match source with
  | [] => Ok (Some empty_module)
  | _ => Ok (Some foo_tree)
  end.

(** A parser that raises on an empty input. *)
Definition strict_parse (source : bytes) : result (option Node) :=
  match source with
  | [] => Raised (Raise OtherException (lit "empty input"))
  | _ => Ok (Some foo_tree)
  end.

(** The module node of the sample without its [start_point] attribute. *)
Definition headless_module : Node :=
  mkNode (Some (lit "module")) true None (Some (2, 0)) (Some 0) (Some 20)
    [foo_function].

(** A function node whose first name-like child has no byte range. *)
Definition odd_function : Node :=
  inner "function_definition" (0, 0) (1, 8) 0 19
    [ mkNode (Some (lit "name")) true (Some (0, 4)) (Some (0, 7)) None None [];
      leaf "identifier" true (0, 4) (0, 7) 4 7 ].

Definition python_args (c : command) (positional : list string) : Namespace :=
  {| lang := lit "python"; cmd := c; args := List.map lit positional |}.

End Demo.

(** ** Walks within the recursion limit *)

(** The levels that [visit] of [collect_folds] enters: below a node without
    one of its points it does not go. *)
Fixpoint folds_height (n : Node) : nat :=
  match start_point n, end_point n with
  | Some _, Some _ => S (list_max (List.map folds_height (children n)))
  | _, _ => 1
  end.

Lemma max_leb (a b d : nat) :
  (Nat.max a b <=? d)%nat = ((a <=? d)%nat && (b <=? d)%nat)%bool.
Proof.
  destruct (Nat.leb_spec a d), (Nat.leb_spec b d); simpl;
    [apply Nat.leb_le|apply Nat.leb_gt|apply Nat.leb_gt|apply Nat.leb_gt]; lia.
Qed.

Lemma visit_each_within {A} (visit : Node -> A -> result A)
    (f : Node -> A -> A) (h : Node -> nat) (d : nat) :
  (forall c acc, visit c acc
                 = if (h c <=? d)%nat then Ok (f c acc)
                   else Raised recursion_error) ->
  forall cs acc,
    visit_each visit cs acc
    = if (list_max (List.map h cs) <=? d)%nat
      then Ok (fold_left (fun acc c => f c acc) cs acc)
      else Raised recursion_error.
Proof.
  intros Hv. induction cs as [|c cs IH]; intros acc; [reflexivity|].
  cbn [visit_each List.map list_max fold_right fold_left].
  change (fold_right Nat.max 0%nat (List.map h cs))
    with (list_max (List.map h cs)).
  rewrite max_leb, Hv.
  destruct (h c <=? d)%nat; simpl; [apply IH|reflexivity].
Qed.

Lemma render_each_within {B} (render : Node -> result B) (f : Node -> B)
    (h : Node -> nat) (d : nat) :
  (forall c, render c
             = if (h c <=? d)%nat then Ok (f c) else Raised recursion_error) ->
  forall cs,
    render_each render cs
    = if (list_max (List.map h cs) <=? d)%nat
      then Ok (List.map f cs)
      else Raised recursion_error.
Proof.
  intros Hr. induction cs as [|c cs IH]; [reflexivity|].
  cbn [render_each List.map list_max fold_right].
  change (fold_right Nat.max 0%nat (List.map h cs))
    with (list_max (List.map h cs)).
  rewrite max_leb, Hr, IH.
  destruct (h c <=? d)%nat; simpl; [|reflexivity].
  destruct (list_max (List.map h cs) <=? d)%nat; reflexivity.
Qed.

Lemma visit_symbols_within_spec (st : list str) (depth : nat) :
  forall n out,
    visit_symbols_within depth st n out
    = if (height n <=? depth)%nat then Ok (visit_symbols st n out)
      else Raised recursion_error.
Proof.
  induction depth as [|d IH]; intros n out.
  - destruct n; reflexivity.
  - destruct n as [ty nm sp ep sb eb cs].
    cbn [visit_symbols_within visit_symbols height children].
    rewrite (visit_each_within _ (visit_symbols st) height d IH).
    reflexivity.
Qed.

Lemma visit_folds_within_spec (depth : nat) :
  forall n out,
    visit_folds_within depth n out
    = if (folds_height n <=? depth)%nat then Ok (visit_folds n out)
      else Raised recursion_error.
Proof.
  induction depth as [|d IH]; intros n out.
  - destruct n as [ty nm [?|] [?|] sb eb cs]; reflexivity.
  - destruct n as [ty nm sp ep sb eb cs].
    cbn [visit_folds_within visit_folds folds_height children start_point
         end_point].
    destruct sp as [[sr sc]|]; [|reflexivity].
    destruct ep as [[er ec]|]; [|reflexivity].
    rewrite (visit_each_within _ visit_folds folds_height d IH).
    reflexivity.
Qed.

Lemma walk_node_within_spec W (source_bytes : bytes) (depth : nat) :
  forall n,
    walk_node_within W depth n source_bytes
    = if (height n <=? depth)%nat then Ok (walk_node W n source_bytes)
      else Raised recursion_error.
Proof.
  induction depth as [|d IH]; intros n.
  - destruct n; reflexivity.
  - destruct n as [ty nm sp ep sb eb cs].
    cbn [walk_node_within walk_node height children].
    rewrite (render_each_within _
               (fun child => walk_node W child source_bytes) height d IH).
    cbn [Nat.leb].
    destruct (list_max (List.map height cs) <=? d)%nat; reflexivity.
Qed.

Lemma folds_height_le (n : Node) : (folds_height n <= height n)%nat.
Proof.
  induction n as [n IH] using Node_tree_ind.
  destruct n as [ty nm sp ep sb eb cs]; simpl in *.
  assert (Hmax : (list_max (List.map folds_height cs)
                  <= list_max (List.map height cs))%nat).
  { induction IH as [|c cs Hc _ IHcs]; simpl; lia. }
  destruct sp; [destruct ep|]; lia.
Qed.

(** Within the limit the collectors and the dumper behave as the functions
    without a limit. *)
Lemma collect_symbols_within_ok (depth : nat) (root : Node) st :
  (height root <= depth)%nat ->
  collect_symbols_within depth root st = collect_symbols root st.
Proof.
  intros H. unfold collect_symbols_within, collect_symbols.
  rewrite visit_symbols_within_spec.
  apply Nat.leb_le in H. now rewrite H.
Qed.

Lemma collect_folds_within_ok (depth : nat) (root : Node) :
  (folds_height root <= depth)%nat ->
  collect_folds_within depth root = collect_folds root.
Proof.
  intros H. unfold collect_folds_within, collect_folds.
  rewrite visit_folds_within_spec.
  apply Nat.leb_le in H. now rewrite H.
Qed.

Lemma walk_node_within_ok W (depth : nat) (root : Node) source_bytes :
  (height root <= depth)%nat ->
  walk_node_within W depth root source_bytes
  = Ok (walk_node W root source_bytes).
Proof.
  intros H. rewrite walk_node_within_spec.
  apply Nat.leb_le in H. now rewrite H.
Qed.

(** ** The fold collector *)

Lemma collect_folds_eq (root : Node) :
  collect_folds root = sort_by_start (folds_of root).
Proof.
  unfold collect_folds. now rewrite (visit_folds_acc root []).
Qed.

Lemma collect_symbols_eq (root : Node) :
  collect_symbols root None
  = sort_by_start
      (filter (is_symbol_type DEFAULT_SYMBOL_NODE_TYPES) (preorder root)).
Proof.
  unfold collect_symbols. simpl.
  now rewrite (visit_symbols_acc DEFAULT_SYMBOL_NODE_TYPES root []).
Qed.

Lemma has_both_points_start (n : Node) :
  has_both_points n = true -> start_point n <> None.
Proof.
  unfold has_both_points. destruct (start_point n); [congruence|discriminate].
Qed.

(** [collect_folds] never raises: the nodes it sorts passed the guard of
    [visit]. *)
Lemma collect_folds_total (root : Node) :
  exists nodes, collect_folds root = Ok nodes.
Proof.
  rewrite collect_folds_eq. apply sort_by_start_total.
  eapply Forall_impl; [|apply folds_of_sound].
  intros n Hn. now apply has_both_points_start, spans_lines_has_points.
Qed.

Lemma fold_record_fields (n : Node) (j : json) :
  fold_record n = Ok j ->
  record_point "start_point" j = start_point n /\
  record_point "end_point" j = end_point n /\
  assoc "type" (match j with JObj fs => fs | _ => [] end) = Some (jtype n).
Proof.
  unfold fold_record.
  destruct (start_point n) as [[sr sc]|], (end_point n) as [[er ec]|];
    try discriminate.
  intros [= <-]. repeat split.
Qed.

Lemma fold_records_total (nodes : list Node) :
  Forall (fun n => has_both_points n = true) nodes ->
  exists out, fold_records nodes = Ok out.
Proof.
  induction 1 as [|n nodes Hn _ [out IH]]; simpl; [now eexists|].
  unfold fold_record, has_both_points in *.
  destruct (start_point n) as [[sr sc]|], (end_point n) as [[er ec]|];
    try discriminate.
  simpl. rewrite IH. simpl. now eexists.
Qed.

Lemma fold_records_Forall2 (nodes : list Node) :
  forall out, fold_records nodes = Ok out ->
  Forall2 (fun n j => fold_record n = Ok j) nodes out.
Proof.
  induction nodes as [|n nodes IH]; simpl; intros out H.
  - inversion H. constructor.
  - destruct (fold_record n) as [j|] eqn:Ej; [|discriminate]. simpl in H.
    destruct (fold_records nodes) as [js|]; [|discriminate]. simpl in H.
    inversion H; subst. constructor; auto.
Qed.

(** Records that show the start points of sorted nodes are sorted. *)
Lemma records_sorted (render : Node -> json -> Prop) :
  (forall n j, render n j -> record_point "start_point" j = start_point n) ->
  forall nodes out,
    Forall2 render nodes out ->
    StronglySorted start_le nodes -> StronglySorted record_le out.
Proof.
  intros Hr nodes out H2. induction H2 as [|n j nodes out Hnj H2 IH].
  - constructor.
  - intros Hs. inversion Hs as [|? ? Hs' Hall]; subst.
    constructor; [now apply IH|].
    clear IH Hs Hs'. induction H2 as [|n' j' nodes out Hnj' H2 IH].
    + constructor.
    + inversion Hall as [|? ? (ka & kb & Ha & Hb & Hle) Hall']; subst.
      constructor; [|now apply IH].
      exists ka, kb. rewrite (Hr _ _ Hnj), (Hr _ _ Hnj'). auto.
Qed.

Lemma spans_lines_record (n : Node) (j : json) :
  spans_lines n = true -> fold_record n = Ok j -> record_spans_lines j.
Proof.
  intros Hs Hj. destruct (fold_record_fields n j Hj) as (Hsp & Hep & _).
  unfold spans_lines in Hs. unfold record_spans_lines.
  destruct (start_point n) as [[sr sc]|]; [|discriminate].
  destruct (end_point n) as [[er ec]|]; [|discriminate].
  exists (sr, sc), (er, ec). repeat split; auto. now apply Z.ltb_lt.
Qed.

(** *** The node set of the [ast] document *)

Lemma flat_map_map {A B C} (f : A -> B) (g : B -> list C) (l : list A) :
  flat_map g (List.map f l) = flat_map (fun a => g (f a)) l.
Proof.
  induction l as [|a l IH]; simpl; [reflexivity|]. now rewrite IH.
Qed.

Lemma map_flat_map {A B C} (f : A -> list B) (g : B -> C) (l : list A) :
  List.map g (flat_map f l) = flat_map (fun a => List.map g (f a)) l.
Proof.
  induction l as [|a l IH]; simpl; [reflexivity|].
  now rewrite map_app, IH.
Qed.

Definition ast_entry (W : World) (source_bytes : bytes) (n : Node) : json :=
  JObj (node_to_dict W n source_bytes true default_max_text).

Definition children_items (kv : string * json) : list json :=
  match kv with
  | (k, JArr items) =>
      if String.eqb k "children" then flat_map ast_entries items else []
  | _ => []
  end.

Lemma ast_entries_JObj (fs : list (string * json)) :
  ast_entries (JObj fs)
  = JObj (filter not_children fs) :: flat_map children_items fs.
Proof. reflexivity. Qed.

Lemma ast_entries_with_children (d : list (string * json)) (items : list json) :
  Forall (fun kv => not_children kv = true) d ->
  ast_entries (JObj (d ++ [("children"%string, JArr items)]))
  = JObj d :: flat_map ast_entries items.
Proof.
  intros Hd. rewrite ast_entries_JObj, filter_app, flat_map_app.
  replace (filter not_children d) with d.
  2:{ induction Hd as [|kv d Hkv _ IH]; simpl; [reflexivity|].
      rewrite Hkv. now f_equal. }
  replace (flat_map children_items d) with (@nil json).
  2:{ induction Hd as [|kv d Hkv _ IH]; simpl; [reflexivity|].
      rewrite <- IH, app_nil_r. destruct kv as [k v].
      unfold not_children in Hkv. simpl in Hkv.
      apply negb_true_iff in Hkv.
      destruct v; simpl; try reflexivity. now rewrite Hkv. }
  simpl. now rewrite !app_nil_r.
Qed.

Lemma node_to_dict_not_children W n source_bytes include_text max_text :
  Forall (fun kv => not_children kv = true)
    (node_to_dict W n source_bytes include_text max_text).
Proof.
  unfold node_to_dict, node_fields.
  destruct (unpack_points n) as [[[srow scol] erow] ecol].
  destruct include_text; repeat constructor.
Qed.

Lemma ast_entries_walk (W : World) (source_bytes : bytes) (root : Node) :
  ast_entries (walk_node W root source_bytes)
  = List.map (ast_entry W source_bytes) (preorder root).
Proof.
  induction root as [n IH] using Node_tree_ind.
  destruct n as [ty nm sp ep sb eb cs]. cbn [walk_node preorder children] in *.
  rewrite ast_entries_with_children by apply node_to_dict_not_children.
  cbn [List.map]. unfold ast_entry at 1. f_equal.
  rewrite flat_map_map, map_flat_map.
  apply flat_map_ext_Forall. exact IH.
Qed.

Lemma fold_record_shows (n : Node) (j : json) :
  fold_record n = Ok j -> shows j n.
Proof.
  unfold fold_record, shows.
  destruct (start_point n) as [[sr sc]|], (end_point n) as [[er ec]|];
    try discriminate.
  intros [= <-]. unfold record_str, record_point, record_int, jtype. simpl.
  destruct (type n); repeat split; reflexivity.
Qed.

Lemma node_to_dict_shows W (n : Node) source_bytes include_text max_text
    (extra : list (string * json)) :
  has_both_points n = true ->
  shows (JObj (node_to_dict W n source_bytes include_text max_text ++ extra)) n.
Proof.
  unfold has_both_points, shows, node_to_dict, node_fields, unpack_points,
    record_str, record_point, record_int, jtype.
  destruct (start_point n) as [[sr sc]|]; [|discriminate].
  destruct (end_point n) as [[er ec]|]; [|discriminate].
  intros _. simpl. destruct (type n); repeat split; reflexivity.
Qed.


Lemma symbol_record_shows W source_bytes (n : Node) :
  has_both_points n = true -> shows (symbol_record W n source_bytes) n.
Proof. intros H. unfold symbol_record. now apply node_to_dict_shows. Qed.

Lemma Forall2_map_shows (render : Node -> json) (l : list Node) :
  Forall (fun n => shows (render n) n) l ->
  Forall2 shows (List.map render l) l.
Proof. induction 1; simpl; constructor; auto. Qed.

Lemma Forall2_flip {A B} (R : A -> B -> Prop) (l : list A) (l' : list B) :
  Forall2 R l l' -> Forall2 (fun b a => R a b) l' l.
Proof. induction 1; constructor; auto. Qed.

(** The documents of the [ast] command on a tree within the limit. *)
Lemma run_ast_within W (root : Node) source_bytes :
  (height root <= max_walk_depth W)%nat ->
  run_ast W (Some root) source_bytes
  = printed (walk_node W root source_bytes).
Proof.
  intros H. unfold run_ast. now rewrite walk_node_within_ok.
Qed.

Lemma run_symbols_within W (root : Node) source_bytes :
  (height root <= max_walk_depth W)%nat ->
  run_symbols W (Some root) source_bytes
  = match collect_symbols root None with
    | Raised e => Uncaught e
    | Ok syms =>
        printed (JArr (List.map (fun n => symbol_record W n source_bytes) syms))
    end.
Proof.
  intros H. unfold run_symbols. now rewrite collect_symbols_within_ok.
Qed.

Lemma run_folds_within W (root : Node) :
  (folds_height root <= max_walk_depth W)%nat ->
  run_folds W (Some root)
  = match (nodes <- collect_folds root ;; fold_records nodes) with
    | Raised e => Uncaught e
    | Ok out => printed (JArr out)
    end.
Proof.
  intros H. unfold run_folds. now rewrite collect_folds_within_ok.
Qed.

Definition with_command (a : Namespace) (c : command) : Namespace :=
  {| lang := lang a; cmd := c; args := args a |}.

Lemma reaches_with_command W a c stdin root source_bytes :
  reaches W a stdin root source_bytes ->
  reaches W (with_command a c) stdin root source_bytes.
Proof. intros (l & p & H). now exists l, p. Qed.




(** ** The symbol collector *)

Lemma str_eqb_eq (a b : str) : str_eqb a b = true <-> a = b.
Proof.
  revert b. induction a as [|x a IH]; intros [|y b]; simpl;
    try (split; [discriminate|congruence]); [tauto|].
  unfold char_eqb. rewrite andb_true_iff, N.eqb_eq, IH. split.
  - intros [-> ->]. reflexivity.
  - intros [= -> ->]. auto.
Qed.



Definition is_symbol (n : Node) : bool :=
  is_symbol_type DEFAULT_SYMBOL_NODE_TYPES n.



Lemma has_points_In (root n : Node) :
  has_points root = true -> In n (preorder root) -> has_both_points n = true.
Proof.
  unfold has_points. rewrite forallb_forall. auto.
Qed.

Lemma collect_symbols_total (root : Node) :
  has_points root = true -> exists syms, collect_symbols root None = Ok syms.
Proof.
  intros Hpts. rewrite collect_symbols_eq. apply sort_by_start_total.
  apply Forall_forall. intros n Hn. apply filter_In in Hn as [Hn _].
  now apply has_both_points_start, (has_points_In root).
Qed.





(** ** Order of the records that start at the same point *)

(** [inside n d]: the node [d] is [n] or lies below it. *)
Inductive inside : Node -> Node -> Prop :=
| inside_here (n : Node) : inside n n
| inside_child (n c d : Node) :
    In c (children n) -> inside c d -> inside n d.

(** [a] occurs in the list at some place before an occurrence of [d]. *)
Definition before {A} (a d : A) (l : list A) : Prop :=
  exists l1 l2 l3, l = l1 ++ a :: l2 ++ d :: l3.

Lemma preorder_unfold (n : Node) :
  preorder n = n :: flat_map preorder (children n).
Proof. destruct n; reflexivity. Qed.

Lemma flat_map_In_split {A B} (f : A -> list B) (c : A) (cs : list A) :
  In c cs -> exists l1 l2, flat_map f cs = l1 ++ f c ++ l2.
Proof.
  intros H. apply in_split in H as (cs1 & cs2 & ->).
  exists (flat_map f cs1), (flat_map f cs2).
  now rewrite flat_map_app.
Qed.

Lemma preorder_inside (n d : Node) :
  inside n d -> exists l1 l2, preorder n = l1 ++ preorder d ++ l2.
Proof.
  induction 1 as [n|n c d Hc _ (l1 & l2 & IH)].
  - exists [], []. now rewrite app_nil_r.
  - destruct (flat_map_In_split preorder c (children n) Hc) as (m1 & m2 & E).
    rewrite (preorder_unfold n), E, IH.
    exists (n :: m1 ++ l1), (l2 ++ m2).
    simpl. now rewrite <- !app_assoc.
Qed.

(** Pre-order lists an ancestor before each node below it. *)
Lemma preorder_ancestor_first (root a c d : Node) :
  inside root a -> In c (children a) -> inside c d ->
  before a d (preorder root).
Proof.
  intros Ha Hc Hd.
  destruct (preorder_inside root a Ha) as (l1 & l2 & E1).
  destruct (flat_map_In_split preorder c (children a) Hc) as (f1 & f2 & Ef).
  destruct (preorder_inside c d Hd) as (g1 & g2 & Eg).
  rewrite (preorder_unfold d) in Eg.
  exists l1, (f1 ++ g1), (flat_map preorder (children d) ++ g2 ++ f2 ++ l2).
  rewrite E1, (preorder_unfold a), Ef, Eg.
  repeat (rewrite <- ?app_assoc, <- ?app_comm_cons). reflexivity.
Qed.

Lemma before_filter {A} (p : A -> bool) (a d : A) (l : list A) :
  p a = true -> p d = true -> before a d l -> before a d (filter p l).
Proof.
  intros Ha Hd (l1 & l2 & l3 & ->).
  exists (filter p l1), (filter p l2), (filter p l3).
  rewrite filter_app. simpl. rewrite Ha, filter_app. simpl. now rewrite Hd.
Qed.

Lemma filter_sub_before {A} (p : A -> bool) (a d : A) (l : list A) :
  before a d (filter p l) -> before a d l.
Proof.
  intros (m1 & m2 & m3 & E). revert m1 E.
  induction l as [|x l IH]; intros m1 E; simpl in E.
  - destruct m1; discriminate.
  - destruct (p x) eqn:Ex.
    + destruct m1 as [|y m1]; simpl in E.
      * injection E as -> E.
        assert (Hd : In d l).
        { assert (Hf : In d (filter p l)).
          { rewrite E. apply in_or_app. right. now left. }
          now apply filter_In in Hf. }
        apply in_split in Hd as (k1 & k2 & ->).
        now exists [], k1, k2.
      * injection E as -> E.
        destruct (IH _ E) as (k1 & k2 & k3 & ->).
        now exists (y :: k1), k2, k3.
    + destruct (IH _ E) as (k1 & k2 & k3 & ->).
      now exists (x :: k1), k2, k3.
Qed.

(** What the stable sort keeps of the order of a list. *)
Lemma stable_before (l out : list Node) (a d : Node) (k : point) :
  (forall k, filter (starts_at k) out = filter (starts_at k) l) ->
  start_point a = Some k -> start_point d = Some k ->
  before a d l -> before a d out.
Proof.
  intros Hst Ha Hd Hb.
  apply (filter_sub_before (starts_at k)). rewrite Hst.
  assert (Hk : key_eqb k k = true) by now apply key_eqb_eq.
  apply before_filter; [| |exact Hb]; unfold starts_at.
  - now rewrite Ha.
  - now rewrite Hd.
Qed.

(** The record of a node that [folds] prints, [null] standing for a node
    that cannot be rendered. *)
Definition fold_dict (n : Node) : json :=
  match fold_record n with
  | Ok j => j
  | Raised _ => JNull
  end.

Lemma fold_records_map (nodes : list Node) (out : list json) :
  fold_records nodes = Ok out -> out = List.map fold_dict nodes.
Proof.
  revert out. induction nodes as [|n nodes IH]; simpl; intros out H.
  - now inversion H.
  - unfold fold_dict. destruct (fold_record n) as [j|]; [|discriminate].
    simpl in H. destruct (fold_records nodes) as [js|]; [|discriminate].
    simpl in H. inversion H; subst. f_equal. now apply IH.
Qed.

Lemma fold_dict_shows (n : Node) :
  has_both_points n = true -> shows (fold_dict n) n.
Proof.
  intros H. unfold fold_dict.
  destruct (fold_record n) as [j|e] eqn:E; [now apply fold_record_shows|].
  unfold fold_record, has_both_points in *.
  destruct (start_point n) as [[? ?]|], (end_point n) as [[? ?]|];
    discriminate.
Qed.

Lemma filter_records (render : Node -> json) (k : point) (l : list Node) :
  Forall (fun n => shows (render n) n) l ->
  filter (record_starts_at k) (List.map render l)
  = List.map render (filter (starts_at k) l).
Proof.
  induction 1 as [|n l (_ & Hn & _) _ IH]; simpl; [reflexivity|].
  unfold record_starts_at at 1, starts_at at 1. rewrite Hn.
  destruct (start_point n) as [p|]; [|exact IH].
  destruct (key_eqb p k); simpl; now rewrite IH.
Qed.

Lemma before_map {A B} (f : A -> B) (a d : A) (l : list A) :
  before a d l -> before (f a) (f d) (List.map f l).
Proof.
  intros (l1 & l2 & l3 & ->).
  exists (List.map f l1), (List.map f l2), (List.map f l3).
  now rewrite map_app, map_cons, map_app, map_cons.
Qed.

(** C10. In the lists that the [symbols] and [folds] commands print, the
    records with one and the same [start_point] are in the order of the
    pre-order visit: for every point, the printed records whose
    [start_point] is that point show, one by one and in the same order, the
    qualifying nodes of the pre-order list that start at that point. In
    particular the record of a qualifying node is printed before the record
    of every qualifying node below it that starts at the same point. *)
Theorem equal_starts_keep_preorder W a stdin (root : Node)
    (source_bytes : bytes) :
  reaches W a stdin (Some root) source_bytes ->
  has_points root = true ->
  (height root <= max_walk_depth W)%nat ->
  exists sym_out fold_out,
    main W (with_command a symbols) stdin = printed (JArr sym_out) /\
    main W (with_command a folds) stdin = printed (JArr fold_out) /\
    (forall k, Forall2 shows (filter (record_starts_at k) sym_out)
                 (filter (starts_at k) (filter is_symbol (preorder root)))) /\
    (forall k, Forall2 shows (filter (record_starts_at k) fold_out)
                 (filter (starts_at k)
                    (filter spans_lines (preorder root)))) /\
    (forall n c d k,
        inside root n -> In c (children n) -> inside c d ->
        start_point n = Some k -> start_point d = Some k ->
        (is_symbol n = true -> is_symbol d = true ->
         exists jn jd, shows jn n /\ shows jd d /\ before jn jd sym_out) /\
        (spans_lines n = true -> spans_lines d = true ->
         exists jn jd, shows jn n /\ shows jd d /\ before jn jd fold_out)).
Proof.
  intros Hreach Hpts Hdepth.
  rewrite (main_reaches _ _ _ _ _
             (reaches_with_command W a symbols _ _ _ Hreach)).
  rewrite (main_reaches _ _ _ _ _
             (reaches_with_command W a folds _ _ _ Hreach)).
  unfold run_command. cbn [with_command cmd].
  rewrite run_symbols_within by exact Hdepth.
  rewrite run_folds_within
    by (etransitivity; [apply folds_height_le|exact Hdepth]).
  destruct (collect_symbols_total root Hpts) as [syms Hsyms].
  destruct (collect_folds_total root) as [nodes Hnodes].
  pose proof Hsyms as Hs. rewrite collect_symbols_eq in Hs.
  apply sort_by_start_spec in Hs as (Hps & _ & Hs).
  pose proof Hnodes as Hf. rewrite collect_folds_eq in Hf.
  apply sort_by_start_spec in Hf as (Hpf & _ & Hf).
  rewrite (folds_of_complete root Hpts) in Hf, Hpf.
  assert (Hin : forall (p : Node -> bool) l n,
            Permutation l (filter p (preorder root)) -> In n l ->
            has_both_points n = true).
  { intros p l n Hp Hn. apply (Permutation_in _ Hp) in Hn.
    apply filter_In in Hn as [Hn _]. now apply (has_points_In root). }
  assert (Hshow_s : Forall (fun n => shows (symbol_record W n source_bytes) n)
                      syms).
  { apply Forall_forall. intros n Hn. apply symbol_record_shows.
    now apply (Hin is_symbol syms). }
  assert (Hshow_f : Forall (fun n => shows (fold_dict n) n) nodes).
  { apply Forall_forall. intros n Hn. apply fold_dict_shows.
    now apply (Hin spans_lines nodes). }
  destruct (fold_records_total nodes) as [fold_out Hout].
  { apply Forall_forall. intros n Hn. now apply (Hin spans_lines nodes). }
  pose proof (fold_records_map nodes fold_out Hout) as Hmap.
  exists (List.map (fun n => symbol_record W n source_bytes) syms), fold_out.
  rewrite Hsyms, Hnodes. simpl. rewrite Hout. subst fold_out.
  split; [reflexivity|]. split; [reflexivity|]. split; [|split].
  - intros k. rewrite (filter_records _ k syms Hshow_s), <- Hs.
    apply Forall2_map_shows.
    apply Forall_forall. intros n Hn. apply filter_In in Hn as [Hn _].
    rewrite Forall_forall in Hshow_s. now apply Hshow_s.
  - intros k. rewrite (filter_records _ k nodes Hshow_f), <- Hf.
    apply Forall2_map_shows.
    apply Forall_forall. intros n Hn. apply filter_In in Hn as [Hn _].
    rewrite Forall_forall in Hshow_f. now apply Hshow_f.
  - intros n c d k Hn Hc Hd Hkn Hkd.
    pose proof (preorder_ancestor_first root n c d Hn Hc Hd) as Hbefore.
    assert (Hnin : In n (preorder root)).
    { destruct Hbefore as (l1 & l2 & l3 & ->).
      apply in_or_app. right. now left. }
    assert (Hdin : In d (preorder root)).
    { destruct Hbefore as (l1 & l2 & l3 & ->).
      apply in_or_app. right. right. apply in_or_app. right. now left. }
    split; intros Hqn Hqd.
    + exists (symbol_record W n source_bytes), (symbol_record W d source_bytes).
      split; [apply symbol_record_shows; now apply (has_points_In root)|].
      split; [apply symbol_record_shows; now apply (has_points_In root)|].
      apply (before_map (fun m => symbol_record W m source_bytes)).
      apply (stable_before _ _ _ _ k Hs); auto.
      now apply before_filter.
    + exists (fold_dict n), (fold_dict d).
      split; [apply fold_dict_shows; now apply (has_points_In root)|].
      split; [apply fold_dict_shows; now apply (has_points_In root)|].
      apply before_map. apply (stable_before _ _ _ _ k Hf); auto.
      now apply before_filter.
Qed.

(** On the sample the module and the function both start at (0, 0) and
    both span lines; the two fold records with that start are printed in
    pre-order, the module first. *)
Lemma equal_starts_keep_preorder_witness :
  exists fold_out,
    main (Demo.world Demo.foo_parse) (Demo.python_args folds [])
      (Ok Demo.foo_source) = printed (JArr fold_out) /\
    Forall2 shows (filter (record_starts_at (0, 0)) fold_out)
      [Demo.foo_tree; Demo.foo_function] /\
    exists jn jd, shows jn Demo.foo_tree /\ shows jd Demo.foo_function /\
                  before jn jd fold_out.
Proof.
  assert (Hreach : reaches (Demo.world Demo.foo_parse)
                     (Demo.python_args folds []) (Ok Demo.foo_source)
                     (Some Demo.foo_tree) Demo.foo_source).
  { exists 3%N, 4%N. repeat split; vm_compute; reflexivity. }
  assert (Hpts : has_points Demo.foo_tree = true)
    by (vm_compute; reflexivity).
  assert (Hdepth : (height Demo.foo_tree
                    <= max_walk_depth (Demo.world Demo.foo_parse))%nat)
    by (apply Nat.leb_le; vm_compute; reflexivity).
  destruct (equal_starts_keep_preorder (Demo.world Demo.foo_parse)
              (Demo.python_args folds []) (Ok Demo.foo_source)
              Demo.foo_tree Demo.foo_source Hreach Hpts Hdepth)
    as (sym_out & fold_out & _ & Hmain & _ & Hfolds & Hbelow).
  exists fold_out. split; [exact Hmain|]. split; [exact (Hfolds (0, 0))|].
  destruct (Hbelow Demo.foo_tree Demo.foo_function Demo.foo_function (0, 0)
              (inside_here _) (or_introl eq_refl) (inside_here _)
              eq_refl eq_refl) as [_ H].
  apply H; reflexivity.
Defined.

(** The module and the function of the sample both start at (0, 0) and both
    span lines: the module, visited first, stays first. *)
Example foo_folds_order :
  collect_folds Demo.foo_tree = Ok [Demo.foo_tree; Demo.foo_function].
Proof. vm_compute; reflexivity. Qed.

(** ** Exit codes *)

Lemma run_command_exit_code W a root source_bytes :
  In (exit_code (run_command W a root source_bytes)) [0; 1; 7; 8].
Proof.
  unfold run_command, run_ast, run_node_at, run_symbols, run_folds, printed.
  destruct (cmd a); simpl.
  - destruct root as [root|]; simpl; auto.
    destruct (walk_node_within W _ root source_bytes); simpl; auto.
  - destruct (args a) as [|r [|c rest]]; simpl; auto.
    destruct (int W r); simpl; auto.
    destruct (int W c); simpl; auto.
    destruct root as [root|]; simpl; auto.
    destruct (find_smallest_named_at W root _ _); simpl; auto.
  - destruct root as [root|]; simpl; auto.
    destruct (collect_symbols_within _ root None); simpl; auto.
  - destruct root as [root|]; simpl; auto.
    destruct (collect_folds_within _ root); simpl; auto.
    destruct (fold_records _); simpl; auto.
Qed.

Lemma main_after_parser W a stdin l p :
  load_language W (lang a) = Ok l ->
  make_parser_for_language W l = Ok p ->
  reaches W a stdin (acquire_root W p (read_stdin stdin)) (read_stdin stdin).
Proof. intros Hl Hp. now exists l, p. Qed.

(** The exit code is 4 exactly when the resolver raises. *)
Lemma exit_4_iff W a stdin :
  exit_code (main W a stdin) = 4 <->
  exists e, load_language W (lang a) = Raised e.
Proof.
  unfold main. destruct (load_language W (lang a)) as [l|e] eqn:El.
  - split; [|intros [e He]; discriminate].
    destruct (make_parser_for_language W l) as [p|e] eqn:Ep;
      [|simpl; discriminate].
    intros H.
    pose proof (run_command_exit_code W a
                  (acquire_root W p (read_stdin stdin)) (read_stdin stdin))
      as Hin.
    unfold run_command in Hin. rewrite H in Hin. simpl in Hin.
    repeat (destruct Hin as [Hin|Hin]; [discriminate|]). contradiction.
  - simpl. split; [now exists e|reflexivity].
Qed.

(** The exit code is 5 exactly when the resolver returns and the builder
    raises. *)
Lemma exit_5_iff W a stdin :
  exit_code (main W a stdin) = 5 <->
  exists l e, load_language W (lang a) = Ok l /\
              make_parser_for_language W l = Raised e.
Proof.
  unfold main. destruct (load_language W (lang a)) as [l|e] eqn:El.
  - destruct (make_parser_for_language W l) as [p|e] eqn:Ep.
    + split.
      * intros H.
        pose proof (run_command_exit_code W a
                      (acquire_root W p (read_stdin stdin)) (read_stdin stdin))
          as Hin.
        unfold run_command in Hin. rewrite H in Hin. simpl in Hin.
        repeat (destruct Hin as [Hin|Hin]; [discriminate|]). contradiction.
      * intros (l' & e & [= <-] & He). congruence.
    + simpl. split; [|reflexivity]. intros _. now exists l, e.
  - simpl. split; [discriminate|]. intros (l & e' & H & _). discriminate.
Qed.

(** ** The parser builder *)

(** C8. The builder returns the parser of [Parser(lang)] when that call
    returns. When it raises, whatever the exception, the builder goes on
    with [Parser()] followed by [set_language(lang)] and its result is the
    result of that second convention: the first failure is not propagated.
    The program exits with code 5 exactly when, the language being loaded,
    both conventions fail. *)
Theorem parser_fails_only_if_both_fail W a stdin :
  (forall l p, Parser_with W l = Ok p ->
               make_parser_for_language W l = Ok p) /\
  (forall l e, Parser_with W l = Raised e ->
               make_parser_for_language W l
               = (p <- Parser_empty W ;; set_language W p l)) /\
  (exit_code (main W a stdin) = 5 <->
   exists l,
     load_language W (lang a) = Ok l /\
     (exists e, Parser_with W l = Raised e) /\
     ((exists e, Parser_empty W = Raised e) \/
      (exists p e, Parser_empty W = Ok p /\ set_language W p l = Raised e))).
Proof.
  assert (Hok : forall l p, Parser_with W l = Ok p ->
                            make_parser_for_language W l = Ok p).
  { intros l p H. unfold make_parser_for_language. now rewrite H. }
  assert (Hfail : forall l e, Parser_with W l = Raised e ->
                   make_parser_for_language W l
                   = (p <- Parser_empty W ;; set_language W p l)).
  { intros l e H. unfold make_parser_for_language. rewrite H.
    now destruct (exn_cls e). }
  repeat split; auto.
  - intros H. apply exit_5_iff in H as (l & e & Hl & He).
    exists l. split; [exact Hl|].
    destruct (Parser_with W l) as [p|e1] eqn:E1.
    + rewrite (Hok l p E1) in He. discriminate.
    + split; [now exists e1|].
      rewrite (Hfail l e1 E1) in He.
      destruct (Parser_empty W) as [p|e0]; simpl in He.
      * right. now exists p, e.
      * left. now exists e0.
  - intros (l & Hl & [e1 E1] & Hsecond). apply exit_5_iff.
    destruct Hsecond as [[e0 E0]|(p & e & E0 & Es)].
    + exists l, e0. rewrite (Hfail l e1 E1), E0. auto.
    + exists l, e. rewrite (Hfail l e1 E1), E0. auto.
Qed.

(** ** The language resolver *)

(** C9. The program exits with code 4 exactly in three cases: the module
    [tree_sitter_<name>] cannot be imported; the module has no callable
    [language] attribute; the call of [language()] raises. In every other
    case the resolver returns: the object of [language()] itself when it is
    a [Language]; otherwise [Language(object)] when that returns, and the
    object unchanged when that raises. *)
Theorem language_resolution_cases W a stdin :
  (exit_code (main W a stdin) = 4 <->
   (exists e, import_module W (lit "tree_sitter_" ++ lang a) = Raised e) \/
   (exists m, import_module W (lit "tree_sitter_" ++ lang a) = Ok m /\
              forall f, getattr_language W m = Some f -> callable W f = false) \/
   (exists m f e, import_module W (lit "tree_sitter_" ++ lang a) = Ok m /\
                  getattr_language W m = Some f /\ callable W f = true /\
                  call W f = Raised e)) /\
  (forall m f o,
      import_module W (lit "tree_sitter_" ++ lang a) = Ok m ->
      getattr_language W m = Some f -> callable W f = true ->
      call W f = Ok o ->
      (isinstance_Language W o = true -> load_language W (lang a) = Ok o) /\
      (isinstance_Language W o = false ->
       forall w, Language W o = Ok w -> load_language W (lang a) = Ok w) /\
      (isinstance_Language W o = false ->
       forall e, Language W o = Raised e -> load_language W (lang a) = Ok o)).
Proof.
  split.
  - rewrite exit_4_iff. unfold load_language, load_language_from_package.
    destruct (import_module W _) as [m|e0] eqn:Ei.
    + destruct (getattr_language W m) as [f|] eqn:Eg.
      * destruct (callable W f) eqn:Ec.
        -- destruct (call W f) as [o|e1] eqn:Ecall; simpl.
           ++ split.
              ** intros [e He]. destruct (isinstance_Language W o);
                   [discriminate|]. destruct (Language W o); discriminate.
              ** intros [[e He]|[(m' & [= <-] & Hnc)|(m' & f' & e & [= <-] & Hg & _ & Hc)]].
                 --- discriminate.
                 --- specialize (Hnc f Eg). congruence.
                 --- congruence.
           ++ split; [|intros _; now exists e1].
              intros _. right. right. now exists m, f, e1.
        -- split; [|intros _; eexists; reflexivity].
           intros _. right. left. exists m. split; [reflexivity|].
           intros f' Hf'. congruence.
      * split; [|intros _; eexists; reflexivity].
        intros _. right. left. exists m. split; [reflexivity|].
        intros f' Hf'. congruence.
    + split; [|intros _; eexists; reflexivity].
      intros _. left. now exists e0.
  - intros m f o Hi Hg Hc Hcall.
    unfold load_language, load_language_from_package.
    rewrite Hi, Hg, Hc, Hcall. simpl.
    repeat split.
    + intros Hinst. now rewrite Hinst.
    + intros Hinst w Hw. now rewrite Hinst, Hw.
    + intros Hinst e He. now rewrite Hinst, He.
Qed.

(** ** Arguments of [node_at] *)

(** A message of one line: it ends with its only line feed. *)
Definition one_line (s : str) : bool :=
  match rev s with
  | c :: body => N.eqb c 10 && negb (existsb (N.eqb 10) body)
  | [] => false
  end.

(** C6. Once the language is loaded and the parser built, [node_at] with
    fewer than two positional arguments exits with code 7, and [node_at]
    with two arguments of which one is rejected by [int] exits with code 8;
    in both cases one line is written on the error stream and nothing on
    the output stream. *)
Theorem node_at_argument_errors W a stdin root source_bytes :
  cmd a = node_at ->
  reaches W a stdin root source_bytes ->
  ((List.length (args a) < 2)%nat ->
   exists msg, main W a stdin = Exited 7 [] [msg] /\ one_line msg = true) /\
  (forall row_arg col_arg rest,
      args a = row_arg :: col_arg :: rest ->
      is_ok (int W row_arg) = false \/ is_ok (int W col_arg) = false ->
      exists msg, main W a stdin = Exited 8 [] [msg] /\ one_line msg = true).
Proof.
  intros Hcmd Hreach. rewrite (main_reaches _ _ _ _ _ Hreach).
  unfold run_command. rewrite Hcmd. unfold run_node_at. split.
  - intros Hlen. exists (lit "node_at requires ROW COL" ++ newline).
    split; [|reflexivity].
    destruct (args a) as [|r [|c rest]]; try reflexivity.
    simpl in Hlen. lia.
  - intros r c rest -> Hbad. exists (lit "Invalid ROW/COL" ++ newline).
    split; [|reflexivity].
    destruct (int W r) as [row|e]; simpl; [|reflexivity].
    destruct (int W c) as [col|e]; simpl; [|reflexivity].
    destruct Hbad; discriminate.
Qed.

Lemma node_at_argument_errors_witness :
  ((List.length (args (Demo.python_args node_at ["0"%string])) < 2)%nat ->
   exists msg,
     main (Demo.world Demo.foo_parse) (Demo.python_args node_at ["0"%string])
       (Ok Demo.foo_source) = Exited 7 [] [msg] /\ one_line msg = true) /\
  (forall row_arg col_arg rest,
      args (Demo.python_args node_at ["0"%string]) = row_arg :: col_arg :: rest ->
      is_ok (int (Demo.world Demo.foo_parse) row_arg) = false \/
      is_ok (int (Demo.world Demo.foo_parse) col_arg) = false ->
      exists msg,
        main (Demo.world Demo.foo_parse) (Demo.python_args node_at ["0"%string])
          (Ok Demo.foo_source) = Exited 8 [] [msg] /\ one_line msg = true).
Proof.
  apply (node_at_argument_errors (Demo.world Demo.foo_parse)
           (Demo.python_args node_at ["0"%string]) (Ok Demo.foo_source)
           (Some Demo.foo_tree) Demo.foo_source).
  - reflexivity.
  - exists 3%N, 4%N. repeat split; vm_compute; reflexivity.
Defined.

Example node_at_one_argument :
  main (Demo.world Demo.foo_parse) (Demo.python_args node_at ["0"%string])
    (Ok Demo.foo_source)
  = Exited 7 [] [lit "node_at requires ROW COL" ++ newline].
Proof. vm_compute; reflexivity. Qed.

Example node_at_letters :
  main (Demo.world Demo.foo_parse)
    (Demo.python_args node_at ["a"%string; "b"%string]) (Ok Demo.foo_source)
  = Exited 8 [] [lit "Invalid ROW/COL" ++ newline].
Proof. vm_compute; reflexivity. Qed.

Example node_at_identifier :
  stdout (main (Demo.world Demo.foo_parse)
            (Demo.python_args node_at ["0"%string; "5"%string])
            (Ok Demo.foo_source))
  = [JObj (node_to_dict (Demo.world Demo.foo_parse)
             (Demo.leaf "identifier" true (0, 4) (0, 7) 4 7)
             Demo.foo_source true 120
           ++ [("children_count"%string, JInt 0)])].
Proof. vm_compute; reflexivity. Qed.

(** ** Empty input *)

(** The document a command prints for an absent root. *)
Definition empty_shape (c : command) : json :=
  match c with
  | ast | node_at => JObj []
  | symbols | folds => JArr []
  end.

Definition valid_arguments (W : World) (a : Namespace) : Prop :=
  cmd a = node_at ->
  exists row_arg col_arg rest row col,
    args a = row_arg :: col_arg :: rest /\
    int W row_arg = Ok row /\ int W col_arg = Ok col.

Lemma walk_node_not_empty W root source_bytes :
  walk_node W root source_bytes <> JObj [].
Proof.
  destruct root as [ty nm sp ep sb eb cs]. cbn [walk_node].
  unfold node_to_dict, node_fields.
  destruct (unpack_points _) as [[[srow scol] erow] ecol]. discriminate.
Qed.

(** With an empty input the binding still returns a root, the [module] node
    that spans nothing, and [ast] prints that node: the document is not the
    empty object. *)
Lemma empty_input_ast_prints_root :
  main (Demo.world Demo.foo_parse) (Demo.python_args ast []) (Ok [])
  = printed (walk_node (Demo.world Demo.foo_parse) Demo.empty_module []) /\
  stdout (main (Demo.world Demo.foo_parse) (Demo.python_args ast []) (Ok []))
  <> [empty_shape ast].
Proof.
  split; [vm_compute; reflexivity|].
  vm_compute. discriminate.
Qed.

(** C4, amended. Once the language is loaded and the parser built, an empty
    standard input is the empty buffer, and it is handed to the parser. When
    the call of the parser raises, or gives a root that is [None], every
    command ([node_at] with two integer arguments) prints its empty shape
    and exits with code 0. When the parser returns a root node, [ast] prints
    the document of that node, which is never the empty object. *)
Theorem empty_input_absent_root W a l p :
  load_language W (lang a) = Ok l ->
  make_parser_for_language W l = Ok p ->
  valid_arguments W a ->
  read_stdin (Ok []) = [] /\
  ((exists e, parse_root W p [] = Raised e) \/ parse_root W p [] = Ok None ->
   main W a (Ok []) = Exited 0 [empty_shape (cmd a)] []) /\
  (forall root,
      parse_root W p [] = Ok (Some root) -> cmd a = ast ->
      (height root <= max_walk_depth W)%nat ->
      main W a (Ok []) = Exited 0 [walk_node W root []] [] /\
      walk_node W root [] <> empty_shape ast).
Proof.
  intros Hl Hp Hargs.
  assert (Hmain : main W a (Ok [])
                  = run_command W a (acquire_root W p []) []).
  { apply main_reaches. now exists l, p. }
  rewrite Hmain. unfold run_command, acquire_root.
  split; [reflexivity|split].
  - intros Habsent.
    assert (Hroot : match parse_root W p [] with
                    | Ok root => root
                    | Raised _ => None
                    end = None).
    { destruct Habsent as [[e ->]| ->]; reflexivity. }
    rewrite Hroot. unfold valid_arguments in Hargs.
    destruct (cmd a); try reflexivity.
    destruct (Hargs eq_refl) as (r & c & rest & row & col & -> & Hr & Hc).
    unfold run_node_at. now rewrite Hr, Hc.
  - intros root -> -> Hdepth. split; [|apply walk_node_not_empty].
    now rewrite run_ast_within.
Qed.

(** Both halves on the [ast] command: a parser that raises on the empty
    buffer, and a parser that returns the module node that spans nothing. *)
Lemma empty_input_absent_root_witness :
  main (Demo.world Demo.strict_parse) (Demo.python_args ast []) (Ok [])
  = Exited 0 [JObj []] [] /\
  main (Demo.world Demo.foo_parse) (Demo.python_args ast []) (Ok [])
  = Exited 0 [walk_node (Demo.world Demo.foo_parse) Demo.empty_module []] [] /\
  walk_node (Demo.world Demo.foo_parse) Demo.empty_module [] <> JObj [].
Proof.
  assert (Hvalid : forall W, valid_arguments W (Demo.python_args ast []))
    by (intros W H; discriminate).
  split.
  - destruct (empty_input_absent_root (Demo.world Demo.strict_parse)
                (Demo.python_args ast []) 3%N 4%N eq_refl eq_refl
                (Hvalid _)) as (_ & H & _).
    apply H. left. eexists. reflexivity.
  - destruct (empty_input_absent_root (Demo.world Demo.foo_parse)
                (Demo.python_args ast []) 3%N 4%N eq_refl eq_refl
                (Hvalid _)) as (_ & _ & H).
    apply (H Demo.empty_module); [reflexivity|reflexivity|].
    apply Nat.leb_le. vm_compute; reflexivity.
Defined.

Example empty_input_no_root :
  List.map
    (fun c => main (Demo.world Demo.strict_parse) (Demo.python_args c []) (Ok []))
    [ast; symbols; folds]
  = [printed (JObj []); printed (JArr []); printed (JArr [])].
Proof. vm_compute; reflexivity. Qed.

(** ** Nodes with absent attributes *)

(** A node without its [start_point] is not printed by [folds], although
    its end row is 2, and neither is the function below it, which has all
    its attributes and spans two lines. *)
Lemma folds_drops_node_without_point :
  start_point Demo.headless_module = None /\
  end_point Demo.headless_module = Some (2, 0) /\
  spans_lines Demo.foo_function = true /\
  In Demo.foo_function (preorder Demo.headless_module) /\
  main (Demo.world (fun _ => Ok (Some Demo.headless_module)))
    (Demo.python_args folds []) (Ok Demo.foo_source)
  = printed (JArr []).
Proof.
  repeat split; try (vm_compute; reflexivity).
  simpl. right. left. reflexivity.
Qed.

(** C7, amended. In a dictionary built by [node_to_dict] (the records of
    [ast], [node_at] and [symbols]) a node that lacks one of its points
    shows both points as [0, 0], and an absent byte offset shows as 0; the
    [ast] document still holds an entry for every node of the tree. The
    fold collector instead skips a node that lacks one of its points,
    together with everything below it. *)
Theorem absent_fields_default_or_skip W n source_bytes include_text max_text :
  let d := node_to_dict W n source_bytes include_text max_text in
  (has_both_points n = false ->
   assoc "start_point" d = Some (jpoint 0 0) /\
   assoc "end_point" d = Some (jpoint 0 0)) /\
  (start_byte n = None -> assoc "start_byte" d = Some (JInt 0)) /\
  (end_byte n = None -> assoc "end_byte" d = Some (JInt 0)) /\
  (forall root, In n (preorder root) ->
     In (ast_entry W source_bytes n)
        (ast_entries (walk_node W root source_bytes))) /\
  (has_both_points n = false -> forall out, visit_folds n out = out).
Proof.
  intros d. subst d. unfold node_to_dict, node_fields, unpack_points,
    has_both_points.
  repeat split.
  - destruct (start_point n) as [[sr sc]|];
      [destruct (end_point n) as [[er ec]|]; [discriminate|]|]; reflexivity.
  - destruct (start_point n) as [[sr sc]|];
      [destruct (end_point n) as [[er ec]|]; [discriminate|]|]; reflexivity.
  - intros ->.
    destruct (start_point n) as [[sr sc]|];
      [destruct (end_point n) as [[er ec]|]|]; reflexivity.
  - intros ->.
    destruct (start_point n) as [[sr sc]|];
      [destruct (end_point n) as [[er ec]|]|]; reflexivity.
  - intros root Hin. rewrite ast_entries_walk. now apply in_map.
  - intros Hn out. destruct n as [ty nm sp ep sb eb cs]; simpl in *.
    destruct sp as [[sr sc]|]; [|reflexivity].
    destruct ep as [[er ec]|]; [discriminate|reflexivity].
Qed.

(** ** Names of symbols *)

(** The type of the child contains [name] or [identifier]. *)
Definition name_child (c : Node) : bool :=
  let ctype := getattr (type c) [] in
  contains (lit "name") ctype || contains (lit "identifier") ctype.

(** Both byte offsets of the child can be read. *)
Definition readable (c : Node) : bool :=
  match start_byte c, end_byte c with
  | Some _, Some _ => true
  | _, _ => false
  end.

Definition child_text (W : World) (source_bytes : bytes) (c : Node) : str :=
  normalize_ws
    (decode_utf8_replace W
       (slice source_bytes (getattr (start_byte c) 0) (getattr (end_byte c) 0))).

Lemma starts_with_refl (s : str) : starts_with s s = true.
Proof.
  induction s as [|c s IH]; simpl; [reflexivity|].
  unfold char_eqb. now rewrite N.eqb_refl.
Qed.

Lemma contains_self (s : str) : contains s s = true.
Proof.
  destruct s as [|c s]; [reflexivity|].
  change (contains (c :: s) (c :: s))
    with (starts_with (c :: s) (c :: s) || contains (c :: s) s).
  now rewrite starts_with_refl.
Qed.

(** The third test of the loop, [ctype == 'identifier'], adds nothing. *)
Lemma name_test_eq (ctype : str) :
  contains (lit "name") ctype || contains (lit "identifier") ctype
  || str_eqb ctype (lit "identifier")
  = contains (lit "name") ctype || contains (lit "identifier") ctype.
Proof.
  destruct (str_eqb ctype (lit "identifier")) eqn:E.
  - apply str_eqb_eq in E. subst ctype.
    rewrite (contains_self (lit "identifier")).
    now rewrite !orb_true_r.
  - now rewrite orb_false_r.
Qed.

Lemma symbol_name_find W (cs : list Node) (source_bytes : bytes) :
  symbol_name W cs source_bytes
  = option_map (child_text W source_bytes)
      (find (fun c => name_child c && readable c) cs).
Proof.
  induction cs as [|c cs IH]; [reflexivity|].
  cbn [symbol_name find]. rewrite name_test_eq. fold (name_child c).
  unfold readable, child_text.
  destruct (name_child c); simpl; [|exact IH].
  destruct (start_byte c) as [sb|] eqn:Esb; simpl; [|exact IH].
  destruct (end_byte c) as [eb|] eqn:Eeb; simpl; [|exact IH].
  now rewrite Esb, Eeb.
Qed.

(** The first child of the node has a matching type and no byte range; the
    name is taken from the second child and is not null. *)
Lemma name_after_failed_extraction :
  find name_child (children Demo.odd_function)
  = Some (mkNode (Some (lit "name")) true (Some (0, 4)) (Some (0, 7))
            None None []) /\
  symbol_name (Demo.world Demo.foo_parse) (children Demo.odd_function)
    Demo.foo_source = Some (lit "foo") /\
  assoc "name"
    (match symbol_record (Demo.world Demo.foo_parse) Demo.odd_function
             Demo.foo_source
     with JObj fs => fs | _ => [] end)
  = Some (JStr (lit "foo")).
Proof. repeat split; vm_compute; reflexivity. Qed.

(** C3, amended. The [name] of a symbol record is the whitespace-normalized
    text of the first direct child, in child order, whose type contains
    [name] or [identifier] and whose byte range can be read; it is null when
    the node has no such child. In particular it is null when no child has a
    matching type, and it is the text of the first child of matching type
    when the byte range of that child can be read. *)
Theorem symbol_name_first_readable_match W n source_bytes :
  symbol_name W (children n) source_bytes
  = option_map (child_text W source_bytes)
      (find (fun c => name_child c && readable c) (children n)) /\
  assoc "name"
    (match symbol_record W n source_bytes with JObj fs => fs | _ => [] end)
  = Some (jname (symbol_name W (children n) source_bytes)) /\
  (Forall (fun c => name_child c = false) (children n) ->
   symbol_name W (children n) source_bytes = None) /\
  (forall l1 c l2,
      children n = l1 ++ c :: l2 ->
      Forall (fun c' => name_child c' = false) l1 ->
      name_child c = true -> readable c = true ->
      symbol_name W (children n) source_bytes
      = Some (child_text W source_bytes c)).
Proof.
  repeat split.
  - apply symbol_name_find.
  - unfold symbol_record, node_to_dict, node_fields.
    destruct (unpack_points n) as [[[srow scol] erow] ecol]. reflexivity.
  - intros Hall. rewrite symbol_name_find.
    induction Hall as [|c cs Hc _ IH]; simpl; [reflexivity|].
    now rewrite Hc.
  - intros l1 c l2 -> Hl1 Hc Hr. rewrite symbol_name_find.
    induction Hl1 as [|c' l1 Hc' _ IH]; simpl.
    + now rewrite Hc, Hr.
    + now rewrite Hc'.
Qed.

(** ** The text of a node *)

(** Whitespace collapsed as a reader of the specification would do it:
    every maximal run of whitespace characters, wherever it stands, becomes
    one space. [in_run] tells that the previous character was whitespace. *)
Fixpoint collapse_from (in_run : bool) (s : str) : str :=
  match s with
  | [] => []
  | c :: s' =>
      if is_space c
      then if in_run then collapse_from true s'
           else space :: collapse_from true s'
      else c :: collapse_from false s'
  end.

Definition spec_collapse_whitespace (s : str) : str := collapse_from false s.

(** The text of a node with whitespace collapsed in that way. *)
Definition spec_node_text (W : World) (n : Node) (source_bytes : bytes)
    (max_text : Z) : str :=
  let text :=
    spec_collapse_whitespace
      (decode_utf8_replace W
         (slice source_bytes (getattr (start_byte n) 0)
            (getattr (end_byte n) 0))) in
  if len text >? max_text then slice text 0 (max_text - 3) ++ lit "..."
  else text.

Definition drop_first_space (s : str) : str :=
  match s with
  | c :: s' => if char_eqb c space then s' else s
  | [] => []
  end.

Fixpoint drop_last_space (s : str) : str :=
  match s with
  | [] => []
  | c :: s' =>
      match s' with
      | [] => if char_eqb c space then [] else [c]
      | _ :: _ => c :: drop_last_space s'
      end
  end.

(** One space less at each end, where there is one. *)
Definition trim_space (s : str) : str := drop_last_space (drop_first_space s).

(** [" ".join] of the pieces, the first piece kept even when empty. *)
Definition join_head (s : str) : str :=
  join [space]
    (match pieces s with
     | w :: ws => w :: filter nonempty ws
     | [] => []
     end).

Lemma pieces_not_nil (s : str) : pieces s <> [].
Proof.
  destruct s as [|c s]; simpl; [discriminate|].
  destruct (is_space c); [discriminate|].
  destruct (pieces s); discriminate.
Qed.

Lemma join_cons_char (c : char) (w : str) (ws : list str) :
  join [space] ((c :: w) :: ws) = c :: join [space] (w :: ws).
Proof. destruct ws; reflexivity. Qed.

Lemma normalize_ws_space (c : char) (s : str) :
  is_space c = true -> normalize_ws (c :: s) = normalize_ws s.
Proof.
  intros Hc. unfold normalize_ws, split. simpl. now rewrite Hc.
Qed.

Lemma normalize_ws_word (c : char) (s : str) :
  is_space c = false -> normalize_ws (c :: s) = c :: join_head s.
Proof.
  intros Hc. unfold normalize_ws, split, join_head. simpl. rewrite Hc.
  destruct (pieces s) as [|w ws] eqn:E; [now apply pieces_not_nil in E|].
  cbn [filter nonempty]. apply join_cons_char.
Qed.

Lemma join_head_space (c : char) (s : str) :
  is_space c = true ->
  join_head (c :: s)
  = match normalize_ws s with [] => [] | _ :: _ => space :: normalize_ws s end.
Proof.
  intros Hc. unfold join_head, normalize_ws, split. simpl. rewrite Hc.
  destruct (filter nonempty (pieces s)) as [|w ws] eqn:E; [reflexivity|].
  assert (Hw : nonempty w = true).
  { assert (Hin : In w (filter nonempty (pieces s))) by (rewrite E; now left).
    now apply filter_In in Hin. }
  destruct w as [|x w]; [discriminate|].
  destruct ws; reflexivity.
Qed.

Lemma join_head_word (c : char) (s : str) :
  is_space c = false -> join_head (c :: s) = c :: join_head s.
Proof.
  intros Hc. unfold join_head. simpl. rewrite Hc.
  destruct (pieces s) as [|w ws] eqn:E; [now apply pieces_not_nil in E|].
  apply join_cons_char.
Qed.

Lemma not_space_char (c : char) : is_space c = false -> char_eqb c space = false.
Proof.
  intros Hc. unfold char_eqb. destruct (N.eqb c space) eqn:E; [|reflexivity].
  apply N.eqb_eq in E. subst c. discriminate.
Qed.

Lemma drop_last_space_word (c : char) (s : str) :
  is_space c = false -> drop_last_space (c :: s) = c :: drop_last_space s.
Proof.
  intros Hc. destruct s as [|x s]; [|reflexivity].
  simpl. now rewrite (not_space_char c Hc).
Qed.

Lemma collapse_run_head (s : str) :
  match collapse_from true s with
  | [] => True
  | c :: _ => is_space c = false
  end.
Proof.
  induction s as [|c s IH]; simpl; [exact I|].
  destruct (is_space c) eqn:E; [exact IH|exact E].
Qed.

Lemma normalize_collapse (s : str) :
  normalize_ws s = drop_last_space (collapse_from true s) /\
  join_head s = drop_last_space (collapse_from false s).
Proof.
  induction s as [|c s [IHn IHj]]; [split; reflexivity|].
  destruct (is_space c) eqn:Hc.
  - rewrite (normalize_ws_space c s Hc), (join_head_space c s Hc).
    cbn [collapse_from]. rewrite Hc. split; [exact IHn|].
    rewrite IHn. pose proof (collapse_run_head s) as Hh.
    destruct (collapse_from true s) as [|x t]; [reflexivity|].
    change (drop_last_space (space :: x :: t))
      with (space :: drop_last_space (x :: t)).
    rewrite (drop_last_space_word x t Hh). reflexivity.
  - rewrite (normalize_ws_word c s Hc), (join_head_word c s Hc).
    cbn [collapse_from]. rewrite Hc.
    rewrite !(drop_last_space_word c _ Hc). now rewrite IHj.
Qed.

(** What the helper does to whitespace: the runs are collapsed, and the
    space that then starts or ends the text is removed. *)
Lemma normalize_ws_trim (s : str) :
  normalize_ws s = trim_space (spec_collapse_whitespace s).
Proof.
  unfold trim_space, spec_collapse_whitespace.
  destruct s as [|c s]; [reflexivity|].
  cbn [collapse_from]. destruct (is_space c) eqn:Hc.
  - cbn [drop_first_space]. unfold char_eqb. rewrite N.eqb_refl.
    rewrite (normalize_ws_space c s Hc). apply normalize_collapse.
  - cbn [drop_first_space]. rewrite (not_space_char c Hc).
    rewrite (normalize_ws_word c s Hc), (drop_last_space_word c _ Hc).
    f_equal. apply normalize_collapse.
Qed.

Lemma slice_prefix {A} (l : list A) (hi : Z) :
  0 <= hi -> slice l 0 hi = firstn (Z.to_nat hi) l.
Proof.
  intros Hhi. unfold slice, clamp_index, len.
  replace (0 <? 0) with false by reflexivity.
  replace (hi <? 0) with false by (symmetry; apply Z.ltb_ge; lia).
  rewrite (Z.min_l 0) by lia. simpl skipn. rewrite Z.sub_0_r.
  destruct (Z.le_gt_cases hi (Z.of_nat (List.length l))) as [Hle|Hgt].
  - now rewrite Z.min_l by lia.
  - rewrite Z.min_r by lia. rewrite Nat2Z.id.
    rewrite firstn_all. symmetry. apply firstn_all2. lia.
Qed.

Lemma node_text_cases W n source_bytes :
  let t := normalize_ws
             (decode_utf8_replace W
                (slice source_bytes (getattr (start_byte n) 0)
                   (getattr (end_byte n) 0))) in
  (len t <= 120 -> node_text W n source_bytes 120 = t) /\
  (120 < len t ->
   node_text W n source_bytes 120 = firstn 117 t ++ lit "..." /\
   len (node_text W n source_bytes 120) = 120).
Proof.
  intros t. unfold node_text. fold t. split.
  - intros Hle. destruct (len t >? 120) eqn:E; [|reflexivity].
    apply Z.gtb_lt in E. lia.
  - intros Hgt. destruct (len t >? 120) eqn:E.
    2:{ rewrite Z.gtb_ltb in E. apply Z.ltb_ge in E. lia. }
    replace (120 - 3) with 117 by reflexivity.
    rewrite slice_prefix by lia.
    replace (Z.to_nat 117) with 117%nat by reflexivity.
    split; [reflexivity|].
    unfold len in *. rewrite length_app, length_firstn.
    replace (List.length (lit "...")) with 3%nat by reflexivity.
    lia.
Qed.

(** The decoded bytes of a node, before any normalization. *)
Definition node_slice_text (W : World) (n : Node) (source_bytes : bytes) : str :=
  decode_utf8_replace W
    (slice source_bytes (getattr (start_byte n) 0) (getattr (end_byte n) 0)).

(** The module of the sample ends after the last line feed. The helper
    prints its text without a trailing space; collapsing the final run of
    whitespace to one space would leave one. *)
Lemma text_drops_trailing_whitespace :
  node_text (Demo.world Demo.foo_parse) Demo.foo_tree Demo.foo_source 120
  = lit "def foo(): pass" /\
  spec_node_text (Demo.world Demo.foo_parse) Demo.foo_tree Demo.foo_source 120
  = lit "def foo(): pass " /\
  node_text (Demo.world Demo.foo_parse) Demo.foo_tree Demo.foo_source 120
  <> spec_node_text (Demo.world Demo.foo_parse) Demo.foo_tree
       Demo.foo_source 120.
Proof.
  repeat split; try (vm_compute; reflexivity).
  vm_compute. discriminate.
Qed.

(** C5, amended. The [text] of a node printed by the ast dumper is the
    slice of the source buffer between its byte offsets, decoded as UTF-8
    with replacement, with every run of whitespace collapsed to one space
    and without the space that this leaves at the start or at the end;
    when that text is longer than 120 characters, its first 117 characters
    followed by three dots are printed, 120 characters in all. The printed
    text is never longer than 120 characters. *)
Theorem node_text_trimmed_and_truncated W n source_bytes :
  assoc "text" (node_to_dict W n source_bytes true default_max_text)
  = Some (JStr (node_text W n source_bytes default_max_text)) /\
  (len (trim_space (spec_collapse_whitespace
                      (node_slice_text W n source_bytes))) <= 120 ->
   node_text W n source_bytes default_max_text
   = trim_space (spec_collapse_whitespace (node_slice_text W n source_bytes))) /\
  (120 < len (trim_space (spec_collapse_whitespace
                            (node_slice_text W n source_bytes))) ->
   node_text W n source_bytes default_max_text
   = firstn 117 (trim_space (spec_collapse_whitespace
                               (node_slice_text W n source_bytes)))
     ++ lit "..." /\
   len (node_text W n source_bytes default_max_text) = 120) /\
  len (node_text W n source_bytes default_max_text) <= 120.
Proof.
  unfold node_slice_text, default_max_text.
  rewrite <- normalize_ws_trim.
  destruct (node_text_cases W n source_bytes) as [Hshort Hlong].
  cbv zeta in Hshort, Hlong.
  repeat split.
  - unfold node_to_dict, node_fields.
    destruct (unpack_points n) as [[[srow scol] erow] ecol]. reflexivity.
  - exact Hshort.
  - now apply Hlong.
  - now apply Hlong.
  - destruct (Z.le_gt_cases
                (len (normalize_ws
                        (decode_utf8_replace W
                           (slice source_bytes (getattr (start_byte n) 0)
                              (getattr (end_byte n) 0))))) 120) as [Hle|Hgt].
    + now rewrite (Hshort Hle).
    + destruct (Hlong Hgt) as [_ ->]. lia.
Qed.

(** A node of 200 letters: 117 of them and three dots are printed. *)
Example long_text_is_cut :
  node_text (Demo.world Demo.foo_parse)
    (Demo.leaf "comment" true (0, 0) (0, 200) 0 200)
    (List.repeat x61 200) 120
  = List.repeat 97%N 117 ++ lit "...".
Proof. vm_compute; reflexivity. Qed.

(** * Further properties of the helper *)

(** ** What a run prints and how it ends *)

(** The four ways a command can end. *)
Lemma run_command_shape W a root source_bytes :
  (exists j, run_command W a root source_bytes = Exited 0 [j] []) \/
  (exists msg, run_command W a root source_bytes = Exited 7 [] [msg]) \/
  (exists msg, run_command W a root source_bytes = Exited 8 [] [msg]) \/
  (exists e, run_command W a root source_bytes = Uncaught e).
Proof.
  unfold run_command, run_ast, run_node_at, run_symbols, run_folds, printed.
  destruct (cmd a).
  - destruct root as [root|]; [|left; eexists; reflexivity].
    destruct (walk_node_within W _ root source_bytes);
      [left|right; right; right]; eexists; reflexivity.
  - destruct (args a) as [|r [|c rest]];
      try (right; left; eexists; reflexivity).
    destruct (int W r); simpl;
      [|right; right; left; eexists; reflexivity].
    destruct (int W c); simpl;
      [|right; right; left; eexists; reflexivity].
    destruct root as [root|]; [|left; eexists; reflexivity].
    destruct (find_smallest_named_at W root _ _);
      left; eexists; reflexivity.
  - destruct root as [root|]; [|left; eexists; reflexivity].
    destruct (collect_symbols_within _ root None);
      [left|right; right; right]; eexists; reflexivity.
  - destruct root as [root|]; [|left; eexists; reflexivity].
    destruct (collect_folds_within _ root); simpl;
      [|right; right; right; eexists; reflexivity].
    destruct (fold_records _);
      [left|right; right; right]; eexists; reflexivity.
Qed.

Lemma main_cases W a stdin :
  (exists e, load_language W (lang a) = Raised e /\
             main W a stdin
             = Exited 4 [] [lit "Error loading language: " ++ exn_msg e
                            ++ newline]) \/
  (exists l e, load_language W (lang a) = Ok l /\
               make_parser_for_language W l = Raised e /\
               main W a stdin
               = Exited 5 [] [lit "Failed to construct parser: " ++ exn_msg e
                              ++ newline]) \/
  (exists l p, load_language W (lang a) = Ok l /\
               make_parser_for_language W l = Ok p /\
               main W a stdin
               = run_command W a (acquire_root W p (read_stdin stdin))
                   (read_stdin stdin)).
Proof.
  unfold main, run_command.
  destruct (load_language W (lang a)) as [l|e] eqn:El.
  - destruct (make_parser_for_language W l) as [p|e] eqn:Ep.
    + right; right. exists l, p. auto.
    + right; left. exists l, e. auto.
  - left. exists e. auto.
Qed.

(** *** The script from its first line

    Before [main] looks at the language the script imports the binding,
    and [main] starts with [parse_args]. *)

(** What [parse_args] does with the command line: it returns the
    namespace, or prints the help text on the output stream and exits with
    status 0, or prints the usage with an error on the error stream and
    exits with status 2. *)
Inductive argparse_result :=
| Parsed (a : Namespace)
| HelpRequested (text : str)
| Rejected (text : str).

(** How a run of the script ends: the import of [tree_sitter] failed
    (message on the error stream, status 2), [argparse] ended the run, or
    the rest of [main] ran. *)
Inductive run :=
| MissingPackage
| HelpPrinted (text : str)
| UsageError (text : str)
| Ran (o : outcome).

Definition script (W : World) (tree_sitter : result unit)
    (parsed : argparse_result) (stdin : result bytes) : run :=
  match tree_sitter with
  | Raised _ => MissingPackage
  | Ok _ =>
      match parsed with
      | Parsed a => Ran (main W a stdin)
      | HelpRequested text => HelpPrinted text
      | Rejected text => UsageError text
      end
  end.

Definition status (r : run) : Z :=
  match r with
  | MissingPackage => 2
  | HelpPrinted _ => 0
  | UsageError _ => 2
  | Ran o => exit_code o
  end.

(** The JSON documents on the output stream. *)
Definition documents (r : run) : list json :=
  match r with
  | Ran o => stdout o
  | _ => []
  end.

(** Whether anything was written on the output stream. *)
Definition wrote_stdout (r : run) : bool :=
  match r with
  | HelpPrinted _ => true
  | Ran o => match stdout o with [] => false | _ :: _ => true end
  | _ => false
  end.

Definition missing_package_message : str :=
  lit "Missing tree_sitter Python package: pip install tree-sitter" ++ newline.

Definition stderr_of (r : run) : list str :=
  match r with
  | MissingPackage => [missing_package_message]
  | HelpPrinted _ => []
  | UsageError text => [text]
  | Ran (Exited _ _ err) => err
  | Ran (Uncaught _) => [lit "Traceback (most recent call last):"]
  end.

(** A run of the script exits with one of seven codes. With code 0 it has
    either printed exactly one JSON document and nothing on the error
    stream, or [argparse] has printed its help text; with any other code it
    has written nothing on the output stream. Code 2 is the code of a
    failed import of the binding and of a command line that [argparse]
    rejects, and of nothing else. *)
Theorem one_document_or_none W tree_sitter parsed stdin :
  In (status (script W tree_sitter parsed stdin)) [0; 1; 2; 4; 5; 7; 8] /\
  (status (script W tree_sitter parsed stdin) = 0 ->
   (exists j, script W tree_sitter parsed stdin = Ran (Exited 0 [j] [])) \/
   (exists text, script W tree_sitter parsed stdin = HelpPrinted text)) /\
  (status (script W tree_sitter parsed stdin) <> 0 ->
   wrote_stdout (script W tree_sitter parsed stdin) = false) /\
  (status (script W tree_sitter parsed stdin) = 2 <->
   (exists e, tree_sitter = Raised e) \/
   (exists u text, tree_sitter = Ok u /\ parsed = Rejected text)).
Proof.
  unfold script.
  destruct tree_sitter as [u|e0].
  2:{ simpl. split; [auto 10|]. split; [discriminate|].
      split; [reflexivity|]. split; [|reflexivity].
      intros _. left. now exists e0. }
  destruct parsed as [a|text|text].
  - cbn [status wrote_stdout].
    assert (Hnot2 : exit_code (main W a stdin) <> 2).
    { destruct (main_cases W a stdin)
        as [(e & _ & ->)|[(l & e & _ & _ & ->)|(l & p & _ & _ & ->)]];
        try discriminate.
      destruct (run_command_shape W a (acquire_root W p (read_stdin stdin))
                  (read_stdin stdin))
        as [[j ->]|[[msg ->]|[[msg ->]|[e ->]]]]; discriminate. }
    split; [|split; [|split]].
    + destruct (main_cases W a stdin)
        as [(e & _ & ->)|[(l & e & _ & _ & ->)|(l & p & _ & _ & ->)]];
        simpl; auto 10.
      destruct (run_command_shape W a (acquire_root W p (read_stdin stdin))
                  (read_stdin stdin))
        as [[j ->]|[[msg ->]|[[msg ->]|[e ->]]]]; simpl; auto 10.
    + intros H0. left.
      destruct (main_cases W a stdin)
        as [(e & _ & E)|[(l & e & _ & _ & E)|(l & p & _ & _ & E)]];
        rewrite E in H0 |- *; try discriminate.
      destruct (run_command_shape W a (acquire_root W p (read_stdin stdin))
                  (read_stdin stdin))
        as [[j Ej]|[[msg Ej]|[[msg Ej]|[e Ej]]]];
        rewrite Ej in H0 |- *; try discriminate.
      now exists j.
    + intros Hne.
      destruct (main_cases W a stdin)
        as [(e & _ & E)|[(l & e & _ & _ & E)|(l & p & _ & _ & E)]];
        rewrite E in Hne |- *; try reflexivity.
      destruct (run_command_shape W a (acquire_root W p (read_stdin stdin))
                  (read_stdin stdin))
        as [[j Ej]|[[msg Ej]|[[msg Ej]|[e Ej]]]];
        rewrite Ej in Hne |- *; try reflexivity.
      now contradiction Hne.
    + split; [intros H; now contradiction Hnot2|].
      intros [[e H]|(u' & text & _ & H)]; discriminate.
  - simpl. split; [auto 10|]. split; [intros _; right; now exists text|].
    split; [intros H; now contradiction H|].
    split; [discriminate|].
    intros [[e H]|(u' & t & _ & H)]; discriminate.
  - simpl. split; [auto 10|]. split; [discriminate|].
    split; [reflexivity|]. split; [|reflexivity].
    intros _. right. now exists u, text.
Qed.

(** ** When a run ends with an error *)

Lemma keyed_raises (l : list Node) :
  (exists e, keyed l = Raised e) <-> Exists (fun n => start_point n = None) l.
Proof.
  induction l as [|n l IH]; simpl.
  - split; [intros [e H]; discriminate|intros H; inversion H].
  - unfold sort_key. destruct (start_point n) as [[r c]|] eqn:En; simpl.
    + destruct (keyed l) as [ks|e0]; simpl.
      * split; [intros [e H]; discriminate|].
        intros H. inversion H as [? ? Hn|? ? Hl]; subst; [congruence|].
        apply IH in Hl as [e He]. discriminate.
      * split; [|intros _; now exists e0].
        intros _. apply Exists_cons_tl. apply IH. now exists e0.
    + split; [|intros _; now eexists].
      intros _. now apply Exists_cons_hd.
Qed.

Lemma sort_by_start_raises (l : list Node) :
  (exists e, sort_by_start l = Raised e) <->
  Exists (fun n => start_point n = None) l.
Proof.
  rewrite <- keyed_raises. unfold sort_by_start.
  destruct (keyed l) as [ks|e]; simpl.
  - split; intros [e H]; discriminate.
  - split; intros _; now exists e.
Qed.







(** A chain of [k + 1] nodes, each spanning two lines. *)
Fixpoint chain (k : nat) : Node :=
  match k with
  | O => Demo.leaf "block" true (0, 0) (1, 0) 0 1
  | S k' => Demo.inner "block" (0, 0) (1, 0) 0 1 [chain k']
  end.

(** With the default limit a chain of 997 levels is walked by the three
    commands, and a chain of 998 levels ends each of them with the
    [RecursionError]. *)
Example deep_tree_ends_with_traceback :
  List.map
    (fun c => exit_code
                (main (Demo.world (fun _ => Ok (Some (chain 996))))
                   (Demo.python_args c []) (Ok [])))
    [ast; symbols; folds] = [0; 0; 0] /\
  List.map
    (fun c => main (Demo.world (fun _ => Ok (Some (chain 997))))
                (Demo.python_args c []) (Ok []))
    [ast; symbols; folds]
  = [Uncaught recursion_error; Uncaught recursion_error;
     Uncaught recursion_error].
Proof. split; vm_compute; reflexivity. Qed.

(** Exit code 7 is the code of [node_at] with fewer than two positional
    arguments, and exit code 8 that of [node_at] with two arguments of
    which one is rejected by [int]; both are reached only after the
    language has been loaded and the parser built. The count of the
    arguments is tested first: one argument that is not a number gives 7. *)
Theorem argument_exit_codes_exact W a stdin :
  (exit_code (main W a stdin) = 7 <->
   (exists l p, load_language W (lang a) = Ok l /\
                make_parser_for_language W l = Ok p) /\
   cmd a = node_at /\ (List.length (args a) < 2)%nat) /\
  (exit_code (main W a stdin) = 8 <->
   (exists l p, load_language W (lang a) = Ok l /\
                make_parser_for_language W l = Ok p) /\
   cmd a = node_at /\
   exists row_arg col_arg rest,
     args a = row_arg :: col_arg :: rest /\
     (is_ok (int W row_arg) = false \/ is_ok (int W col_arg) = false)).
Proof.
  destruct (main_cases W a stdin)
    as [(e & Hl & E)|[(l & e & Hl & Hp & E)|(l & p & Hl & Hp & E)]];
    rewrite E.
  - simpl. split; (split; [discriminate|]);
      intros [(l & p & Hl' & _) _]; congruence.
  - simpl. split; (split; [discriminate|]);
      intros [(l' & p & Hl' & Hp') _]; congruence.
  - assert (Hreach : exists l p, load_language W (lang a) = Ok l /\
                        make_parser_for_language W l = Ok p)
      by now exists l, p.
    clear E. unfold run_command.
    destruct (cmd a) eqn:Hcmd.
    + unfold run_ast.
      destruct (acquire_root _ _ _) as [root|]; simpl.
      * destruct (walk_node_within W _ root _); simpl;
          split; (split; [discriminate|intros (_ & H & _); discriminate]).
      * split; (split; [discriminate|intros (_ & H & _); discriminate]).
    + unfold run_node_at.
      destruct (args a) as [|r [|c rest]] eqn:Ha; simpl.
      * split; split; try discriminate; auto with arith.
        intros (_ & _ & r & c & rest & H & _). discriminate.
      * split; split; try discriminate; auto with arith.
        intros (_ & _ & r' & c & rest & H & _). discriminate.
      * destruct (int W r) as [row|e1] eqn:Er; simpl.
        -- destruct (int W c) as [col|e2] eqn:Ec; simpl.
           ++ assert (Hzero : exit_code
                       match acquire_root W p (read_stdin stdin) with
                       | Some root =>
                           match find_smallest_named_at W root row col with
                           | Some node =>
                               printed
                                 (JObj
                                    (node_to_dict W node (read_stdin stdin)
                                       true default_max_text ++
                                     [("children_count"%string,
                                       JInt (len (children node)))]))
                           | None => printed (JObj [])
                           end
                       | None => printed (JObj [])
                       end = 0).
              { destruct (acquire_root _ _ _) as [root|]; [|reflexivity].
                destruct (find_smallest_named_at W root row col);
                  reflexivity. }
              rewrite Hzero. split; split; try discriminate.
              ** intros (_ & _ & H). simpl in H. lia.
              ** intros (_ & _ & r' & c' & rest' & [= <- <- <-] & [H|H]).
                 --- rewrite Er in H. discriminate.
                 --- rewrite Ec in H. discriminate.
           ++ split; split; try discriminate; try (intros _; reflexivity).
              ** intros (_ & _ & H). simpl in H. lia.
              ** intros _. repeat split; auto.
                 exists r, c, rest. split; [reflexivity|].
                 right. now rewrite Ec.
        -- split; split; try discriminate; try (intros _; reflexivity).
           ++ intros (_ & _ & H). simpl in H. lia.
           ++ intros _. repeat split; auto.
              exists r, c, rest. split; [reflexivity|].
              left. now rewrite Er.
    + unfold run_symbols.
      destruct (acquire_root _ _ _) as [root|]; simpl.
      * destruct (collect_symbols_within _ root None); simpl;
          split; (split; [discriminate|intros (_ & H & _); discriminate]).
      * split; (split; [discriminate|intros (_ & H & _); discriminate]).
    + unfold run_folds.
      destruct (acquire_root _ _ _) as [root|]; simpl.
      * destruct (collect_folds_within _ root); simpl.
        -- destruct (fold_records _); simpl;
             split; (split; [discriminate|intros (_ & H & _); discriminate]).
        -- split; (split; [discriminate|intros (_ & H & _); discriminate]).
      * split; (split; [discriminate|intros (_ & H & _); discriminate]).
Qed.

(** ** The point locator *)

Lemma node_to_dict_no_children_key W n source_bytes include_text max_text :
  assoc "children" (node_to_dict W n source_bytes include_text max_text
                    ++ [("children_count"%string, JInt (len (children n)))])
  = None.
Proof.
  unfold node_to_dict, node_fields.
  destruct (unpack_points n) as [[[srow scol] erow] ecol].
  destruct include_text; reflexivity.
Qed.

(** [node_at] with two integer arguments prints one document and exits
    with code 0. The document is the empty object exactly when there is no
    root or the lookup of the binding gives nothing, by returning [None] or
    by raising. Otherwise it is the dictionary of the node found, with its
    text, followed by the number of its direct children; it has no
    [children] item. Arguments after the second are not looked at. *)
Theorem node_at_document W a stdin root source_bytes
    row_arg col_arg rest row col :
  cmd a = node_at ->
  reaches W a stdin root source_bytes ->
  args a = row_arg :: col_arg :: rest ->
  int W row_arg = Ok row -> int W col_arg = Ok col ->
  exists fields,
    main W a stdin = Exited 0 [JObj fields] [] /\
    (fields = [] <->
     forall r node, root = Some r ->
       named_descendant_for_point_range W r (row, col) (row, col)
       <> Ok (Some node)) /\
    (forall r node, root = Some r ->
       named_descendant_for_point_range W r (row, col) (row, col)
       = Ok (Some node) ->
       fields = node_to_dict W node source_bytes true default_max_text
                ++ [("children_count"%string, JInt (len (children node)))] /\
       assoc "children" fields = None).
Proof.
  intros Hcmd Hreach Hargs Hrow Hcol.
  rewrite (main_reaches _ _ _ _ _ Hreach). unfold run_command.
  rewrite Hcmd. unfold run_node_at. rewrite Hargs, Hrow. simpl.
  rewrite Hcol. simpl. unfold find_smallest_named_at, printed.
  destruct root as [r|].
  - destruct (named_descendant_for_point_range W r (row, col) (row, col))
      as [[node|]|e] eqn:E.
    + eexists. split; [reflexivity|]. split.
      * split.
        -- unfold node_to_dict, node_fields.
           destruct (unpack_points node) as [[[? ?] ?] ?]. discriminate.
        -- intros H. exfalso. apply (H r node eq_refl). exact E.
      * intros r' node' [= <-] H. rewrite E in H. injection H as <-.
        split; [reflexivity|]. apply node_to_dict_no_children_key.
    + exists []. split; [reflexivity|]. split.
      * split; [|reflexivity]. intros _ r' node' [= <-]. congruence.
      * intros r' node' [= <-] H. congruence.
    + exists []. split; [reflexivity|]. split.
      * split; [|reflexivity]. intros _ r' node' [= <-]. congruence.
      * intros r' node' [= <-] H. congruence.
  - exists []. split; [reflexivity|]. split.
    + split; [|reflexivity]. intros _ r' node' H. discriminate.
    + intros r' node' H. discriminate.
Qed.

Lemma node_at_document_witness :
  exists fields,
    main (Demo.world Demo.foo_parse)
      (Demo.python_args node_at ["0"; "5"; "ignored"]%string)
      (Ok Demo.foo_source) = Exited 0 [JObj fields] [] /\
    (fields = [] <->
     forall r node, Some Demo.foo_tree = Some r ->
       named_descendant_for_point_range (Demo.world Demo.foo_parse) r
         (0, 5) (0, 5) <> Ok (Some node)) /\
    (forall r node, Some Demo.foo_tree = Some r ->
       named_descendant_for_point_range (Demo.world Demo.foo_parse) r
         (0, 5) (0, 5) = Ok (Some node) ->
       fields = node_to_dict (Demo.world Demo.foo_parse) node Demo.foo_source
                  true default_max_text
                ++ [("children_count"%string, JInt (len (children node)))] /\
       assoc "children" fields = None).
Proof.
  apply (node_at_document (Demo.world Demo.foo_parse)
           (Demo.python_args node_at ["0"; "5"; "ignored"]%string)
           (Ok Demo.foo_source) (Some Demo.foo_tree) Demo.foo_source
           (lit "0") (lit "5") [lit "ignored"] 0 5).
  - reflexivity.
  - exists 3%N, 4%N. repeat split; vm_compute; reflexivity.
  - reflexivity.
  - vm_compute; reflexivity.
  - vm_compute; reflexivity.
Defined.

(** ** The syntax tree document *)

Definition complete_node (n : Node) : bool :=
  match type n, start_point n, end_point n, start_byte n, end_byte n with
  | Some _, Some _, Some _, Some _, Some _ => true
  | _, _, _, _, _ => false
  end.

(** Every node of the tree has its type, its points and its offsets. *)
Definition complete (root : Node) : bool :=
  forallb complete_node (preorder root).

Lemma complete_children (n c : Node) :
  complete n = true -> In c (children n) -> complete c = true.
Proof.
  unfold complete. rewrite (preorder_unfold n). simpl.
  rewrite forallb_flat_map. intros H Hc. apply andb_prop in H as [_ H].
  rewrite forallb_forall in H. now apply H.
Qed.

Lemma complete_head (n : Node) : complete n = true -> complete_node n = true.
Proof.
  unfold complete. rewrite (preorder_unfold n). simpl.
  intros H. now apply andb_prop in H as [H _].
Qed.

Lemma map_walk_inj W source_bytes (cs : list Node) :
  Forall (fun c => forall m, complete c = true -> complete m = true ->
            walk_node W c source_bytes = walk_node W m source_bytes -> c = m)
    cs ->
  forall cs',
    (forall c, In c cs -> complete c = true) ->
    (forall c, In c cs' -> complete c = true) ->
    List.map (fun c => walk_node W c source_bytes) cs
    = List.map (fun c => walk_node W c source_bytes) cs' ->
    cs = cs'.
Proof.
  induction 1 as [|c cs Hc _ IH]; intros [|c' cs'] H1 H2 E;
    try discriminate; [reflexivity|].
  simpl in E. injection E as Ec Ecs. f_equal.
  - apply Hc; auto; [apply H1|apply H2]; now left.
  - apply IH; auto; intros x Hx; [apply H1|apply H2]; now right.
Qed.

(** The document of [ast] determines the tree: two trees whose nodes have
    all their attributes and that print the same document are equal. *)
Theorem ast_document_determines_tree W source_bytes (n m : Node) :
  complete n = true -> complete m = true ->
  walk_node W n source_bytes = walk_node W m source_bytes ->
  n = m.
Proof.
  revert m. induction n as [n IH] using Node_tree_ind. intros m Hn Hm E.
  pose proof (complete_head n Hn) as Hnn.
  pose proof (complete_head m Hm) as Hmm.
  pose proof (complete_children n) as Hnc.
  pose proof (complete_children m) as Hmc.
  destruct n as [ty nm sp ep sb eb cs], m as [ty' nm' sp' ep' sb' eb' cs'].
  unfold complete_node in Hnn, Hmm. simpl in Hnn, Hmm, IH, Hnc, Hmc.
  destruct ty as [t|]; [|discriminate].
  destruct sp as [[sr sc]|]; [|discriminate].
  destruct ep as [[er ec]|]; [|discriminate].
  destruct sb as [b1|]; [|discriminate].
  destruct eb as [b2|]; [|discriminate].
  destruct ty' as [t'|]; [|discriminate].
  destruct sp' as [[sr' sc']|]; [|discriminate].
  destruct ep' as [[er' ec']|]; [|discriminate].
  destruct sb' as [b1'|]; [|discriminate].
  destruct eb' as [b2'|]; [|discriminate].
  cbn [walk_node children] in E.
  unfold node_to_dict, node_fields, unpack_points, jtype, jpoint in E.
  cbn [type is_named start_point end_point start_byte end_byte getattr app]
    in E.
  injection E as Et Enm Esr Esc Eer Eec Eb1 Eb2 _ Ecs.
  subst. f_equal.
  apply (map_walk_inj W source_bytes cs IH cs'); auto.
Qed.

Lemma ast_document_determines_tree_witness :
  Demo.foo_tree = Demo.foo_tree.
Proof.
  apply (ast_document_determines_tree (Demo.world Demo.foo_parse)
           Demo.foo_source Demo.foo_tree Demo.foo_tree).
  - vm_compute; reflexivity.
  - vm_compute; reflexivity.
  - reflexivity.
Defined.

(** ** More on the sort *)

Definition has_start (n : Node) : Prop := start_point n <> None.

Lemma starts_at_own (n : Node) (k : point) :
  start_point n = Some k -> starts_at k n = true.
Proof.
  intros H. unfold starts_at. rewrite H. now apply key_eqb_eq.
Qed.

Lemma starts_at_inv (n : Node) (k : point) :
  starts_at k n = true -> start_point n = Some k.
Proof.
  unfold starts_at. destruct (start_point n) as [p|]; [|discriminate].
  intros H. apply key_eqb_eq in H. now subst.
Qed.

Lemma point_le_antisym (a b : point) : point_le a b -> point_le b a -> a = b.
Proof.
  destruct a as [r1 c1], b as [r2 c2]. unfold point_le; simpl.
  intros H1 H2. f_equal; lia.
Qed.

Lemma sorted_head_least (x : Node) (l : list Node) (y : Node) :
  StronglySorted start_le (x :: l) -> In y (x :: l) -> has_start x ->
  exists kx ky, start_point x = Some kx /\ start_point y = Some ky /\
                point_le kx ky.
Proof.
  intros Hs Hin Hx. inversion Hs as [|? ? _ Hall]; subst.
  destruct Hin as [<-|Hin].
  - destruct (start_point x) as [k|] eqn:E; [|now contradiction Hx].
    exists k, k. repeat split. destruct k as [r c].
    unfold point_le; simpl. lia.
  - rewrite Forall_forall in Hall. exact (Hall y Hin).
Qed.

(** Two sorted lists of nodes that hold, for every start point, the same
    nodes in the same order are equal. *)
Lemma stable_sorted_unique (l1 : list Node) :
  forall l2,
    Forall has_start l1 -> Forall has_start l2 ->
    StronglySorted start_le l1 -> StronglySorted start_le l2 ->
    (forall k, filter (starts_at k) l1 = filter (starts_at k) l2) ->
    l1 = l2.
Proof.
  induction l1 as [|x l1 IH]; intros l2 H1 H2 S1 S2 Hf.
  - destruct l2 as [|y l2]; [reflexivity|].
    inversion H2 as [|? ? Hy _]; subst.
    destruct (start_point y) as [k|] eqn:E; [|now contradiction Hy].
    specialize (Hf k). simpl in Hf. rewrite (starts_at_own y k E) in Hf.
    discriminate.
  - inversion H1 as [|? ? Hx H1']; subst.
    destruct (start_point x) as [kx|] eqn:Ex; [|now contradiction Hx].
    destruct l2 as [|y l2].
    { specialize (Hf kx). simpl in Hf. rewrite (starts_at_own x kx Ex) in Hf.
      discriminate. }
    inversion H2 as [|? ? Hy H2']; subst.
    destruct (start_point y) as [ky|] eqn:Ey; [|now contradiction Hy].
    assert (Hxin : In x (y :: l2)).
    { assert (H : In x (filter (starts_at kx) (y :: l2))).
      { rewrite <- Hf. simpl. rewrite (starts_at_own x kx Ex). now left. }
      now apply filter_In in H. }
    assert (Hyin : In y (x :: l1)).
    { assert (H : In y (filter (starts_at ky) (x :: l1))).
      { rewrite Hf. simpl. rewrite (starts_at_own y ky Ey). now left. }
      now apply filter_In in H. }
    assert (Hk : kx = ky).
    { destruct (sorted_head_least x l1 y S1 Hyin Hx)
        as (a & b & Ha & Hb & Hab).
      destruct (sorted_head_least y l2 x S2 Hxin Hy)
        as (c & d & Hc & Hd & Hcd).
      rewrite Ex in Ha, Hd. rewrite Ey in Hb, Hc.
      injection Ha as <-. injection Hb as <-.
      injection Hc as <-. injection Hd as <-.
      now apply point_le_antisym. }
    subst ky.
    assert (Hxy : x = y).
    { specialize (Hf kx). simpl in Hf.
      rewrite (starts_at_own x kx Ex), (starts_at_own y kx Ey) in Hf.
      now injection Hf. }
    subst y. f_equal.
    inversion S1; inversion S2; subst.
    apply IH; auto.
    intros k. specialize (Hf k). simpl in Hf.
    destruct (starts_at k x); [now injection Hf|exact Hf].
Qed.

Lemma sort_by_start_has_start (l out : list Node) :
  sort_by_start l = Ok out -> Forall has_start l /\ Forall has_start out.
Proof.
  intros H. pose proof (sort_by_start_spec l out H) as (Hp & _ & _).
  assert (Hl : Forall has_start l).
  { apply Forall_forall. intros n Hn Hnone.
    assert (Hex : exists e, sort_by_start l = Raised e).
    { apply sort_by_start_raises, Exists_exists. now exists n. }
    destruct Hex as [e He]. congruence. }
  split; [exact Hl|].
  eapply Permutation_Forall; [symmetry; exact Hp|exact Hl].
Qed.

(** The result of the sort is the only list that is sorted by start point
    and keeps, for every start point, the nodes of the argument with that
    start point in their order. A stable sort other than the insertion sort
    of this development returns the same list. *)
Theorem stable_sort_result_unique (l out out' : list Node) :
  sort_by_start l = Ok out ->
  Forall has_start out' ->
  StronglySorted start_le out' ->
  (forall k, filter (starts_at k) out' = filter (starts_at k) l) ->
  out' = out.
Proof.
  intros Hsort Hs' Hsorted' Hst'.
  destruct (sort_by_start_spec l out Hsort) as (_ & Hsorted & Hst).
  destruct (sort_by_start_has_start l out Hsort) as [_ Hs].
  apply stable_sorted_unique; auto.
  intros k. now rewrite Hst, Hst'.
Qed.

Lemma stable_sort_result_unique_witness :
  [Demo.foo_tree; Demo.foo_function] = [Demo.foo_tree; Demo.foo_function].
Proof.
  apply (stable_sort_result_unique
           [Demo.foo_tree; Demo.foo_function]
           [Demo.foo_tree; Demo.foo_function]
           [Demo.foo_tree; Demo.foo_function]).
  - vm_compute; reflexivity.
  - repeat constructor; discriminate.
  - repeat constructor;
      exists (0, 0), (0, 0); repeat split; unfold point_le; simpl; lia.
  - intros k. reflexivity.
Defined.




(** ** The fold collector on any tree *)

Lemma folds_of_in_tree (n : Node) :
  Forall (fun m => In m (preorder n)) (folds_of n).
Proof.
  induction n as [n IH] using Node_tree_ind.
  rewrite (preorder_unfold n).
  destruct n as [ty nm sp ep sb eb cs]; simpl in *.
  destruct sp as [[sr sc]|]; [|constructor].
  destruct ep as [[er ec]|]; [|constructor].
  apply Forall_app; split.
  - destruct (sr <? er); constructor; [now left|constructor].
  - apply Forall_flat_map. rewrite Forall_forall in IH |- *.
    intros c Hc. eapply Forall_impl; [|exact (IH c Hc)].
    intros m Hm. right. apply in_flat_map. now exists c.
Qed.

(** Whatever attributes the nodes of the tree lack, as long as the levels
    that [visit] enters stay within the recursion limit, [folds] ends with
    code 0 and prints a list in ascending order of start point; every
    record shows the type, the points and the offsets of a node of the tree
    that spans several lines. *)
Theorem folds_safe_on_any_tree W a stdin root source_bytes :
  cmd a = folds ->
  reaches W a stdin (Some root) source_bytes ->
  (folds_height root <= max_walk_depth W)%nat ->
  exists nodes out,
    main W a stdin = Exited 0 [JArr out] [] /\
    Forall2 shows out nodes /\
    Forall (fun n => In n (preorder root) /\ spans_lines n = true) nodes /\
    Forall record_spans_lines out /\
    StronglySorted record_le out.
Proof.
  intros Hcmd Hreach Hdepth.
  rewrite (main_reaches _ _ _ _ _ Hreach). unfold run_command.
  rewrite Hcmd, run_folds_within by exact Hdepth.
  destruct (collect_folds_total root) as [nodes Hnodes].
  pose proof Hnodes as Hsort. rewrite collect_folds_eq in Hsort.
  apply sort_by_start_spec in Hsort as (Hperm & Hsorted & _).
  assert (Hall : Forall (fun n => In n (preorder root) /\ spans_lines n = true)
                   nodes).
  { eapply Permutation_Forall; [symmetry; exact Hperm|].
    pose proof (folds_of_in_tree root) as Hin.
    pose proof (folds_of_sound root) as Hsp.
    rewrite Forall_forall in Hin, Hsp |- *. auto. }
  destruct (fold_records_total nodes) as [out Hout].
  { eapply Forall_impl; [|exact Hall].
    intros n [_ Hn]. now apply spans_lines_has_points. }
  pose proof (fold_records_Forall2 nodes out Hout) as H2.
  exists nodes, out. rewrite Hnodes. simpl. rewrite Hout.
  split; [reflexivity|]. split.
  { apply Forall2_flip. eapply Forall2_impl; [|exact H2].
    intros n j. apply fold_record_shows. }
  split; [exact Hall|]. split.
  - clear - H2 Hall. induction H2 as [|n j nodes out Hnj _ IH].
    + constructor.
    + inversion Hall as [|? ? [_ Hn] Hall']; subst.
      constructor; [|now apply IH].
      now apply (spans_lines_record n).
  - eapply records_sorted; [|exact H2|exact Hsorted].
    intros n j Hnj. now apply fold_record_fields.
Qed.

(** A function that spans two lines, over children without byte offsets. *)
Lemma folds_safe_on_any_tree_witness :
  exists nodes out,
    main (Demo.world (fun _ => Ok (Some Demo.odd_function)))
      (Demo.python_args folds []) (Ok Demo.foo_source)
    = Exited 0 [JArr out] [] /\
    Forall2 shows out nodes /\
    Forall (fun n => In n (preorder Demo.odd_function) /\
                     spans_lines n = true) nodes /\
    Forall record_spans_lines out /\
    StronglySorted record_le out.
Proof.
  apply (folds_safe_on_any_tree
           (Demo.world (fun _ => Ok (Some Demo.odd_function)))
           (Demo.python_args folds []) (Ok Demo.foo_source)
           Demo.odd_function Demo.foo_source).
  - reflexivity.
  - exists 3%N, 4%N. repeat split; vm_compute; reflexivity.
  - apply Nat.leb_le. vm_compute; reflexivity.
Defined.

(** ** The symbol collector with a set of the caller *)



(** ** Whitespace in the printed texts *)

Definition no_space (w : str) : Prop := Forall (fun c => is_space c = false) w.

Lemma pieces_no_space (s : str) : Forall no_space (pieces s).
Proof.
  induction s as [|c s IH]; simpl.
  - repeat constructor.
  - destruct (is_space c) eqn:Hc.
    + constructor; [constructor|exact IH].
    + destruct (pieces s) as [|w ws]; [repeat constructor; exact Hc|].
      inversion IH; subst. constructor; [|assumption].
      now constructor.
Qed.

Lemma split_words (s : str) :
  Forall (fun w => nonempty w = true /\ no_space w) (split s).
Proof.
  unfold split. apply Forall_forall. intros w Hw.
  apply filter_In in Hw as [Hin Hne]. split; [exact Hne|].
  pose proof (pieces_no_space s) as H. rewrite Forall_forall in H. auto.
Qed.

Lemma pieces_app_word (w s : str) :
  no_space w ->
  pieces (w ++ s)
  = match pieces s with
    | p :: ps => (w ++ p) :: ps
    | [] => [w]
    end.
Proof.
  induction 1 as [|c w Hc _ IH]; simpl.
  - destruct (pieces s) as [|p ps] eqn:E; [now apply pieces_not_nil in E|].
    reflexivity.
  - rewrite Hc, IH. destruct (pieces s); reflexivity.
Qed.

Lemma pieces_join (ws : list str) :
  ws <> [] -> Forall no_space ws -> pieces (join [space] ws) = ws.
Proof.
  induction ws as [|w ws IH]; intros Hne Hall; [congruence|].
  inversion Hall as [|? ? Hw Hws]; subst.
  destruct ws as [|w2 ws].
  - simpl. rewrite <- (app_nil_r w) at 1.
    rewrite (pieces_app_word w [] Hw). simpl. now rewrite app_nil_r.
  - change (join [space] (w :: w2 :: ws))
      with (w ++ space :: join [space] (w2 :: ws)).
    rewrite (pieces_app_word w _ Hw).
    change (pieces (space :: join [space] (w2 :: ws)))
      with ([] :: pieces (join [space] (w2 :: ws))).
    rewrite IH by (auto; discriminate). now rewrite app_nil_r.
Qed.

Lemma filter_nonempty_id (ws : list str) :
  Forall (fun w => nonempty w = true /\ no_space w) ws ->
  filter nonempty ws = ws.
Proof.
  induction 1 as [|w ws [Hw _] _ IH]; simpl; [reflexivity|].
  now rewrite Hw, IH.
Qed.

Lemma split_join (ws : list str) :
  Forall (fun w => nonempty w = true /\ no_space w) ws ->
  split (join [space] ws) = ws.
Proof.
  intros Hall. destruct ws as [|w ws]; [reflexivity|].
  unfold split. rewrite pieces_join.
  - now apply filter_nonempty_id.
  - discriminate.
  - eapply Forall_impl; [|exact Hall]. now intros x [_ Hx].
Qed.

Definition only_plain_spaces (s : str) : Prop :=
  Forall (fun c => is_space c = true -> c = space) s.

Lemma join_plain_spaces (ws : list str) :
  Forall no_space ws -> only_plain_spaces (join [space] ws).
Proof.
  unfold only_plain_spaces.
  induction 1 as [|w ws Hw Hws IH]; [constructor|].
  assert (Hpw : Forall (fun c => is_space c = true -> c = space) w).
  { eapply Forall_impl; [|exact Hw]. intros c Hc H. congruence. }
  destruct ws as [|w2 ws]; [exact Hpw|].
  change (join [space] (w :: w2 :: ws))
    with (w ++ space :: join [space] (w2 :: ws)).
  apply Forall_app; split; [exact Hpw|].
  constructor; [reflexivity|exact IH].
Qed.

Lemma normalize_ws_plain (s : str) : only_plain_spaces (normalize_ws s).
Proof.
  apply join_plain_spaces.
  eapply Forall_impl; [|apply split_words]. now intros w [_ Hw].
Qed.

(** [" ".join(s.split())] keeps the words of the text: splitting the result
    gives the words of the argument. Applying it twice changes nothing
    more, and the result is empty exactly when the text has no word. *)
Theorem normalize_ws_keeps_words (s : str) :
  split (normalize_ws s) = split s /\
  normalize_ws (normalize_ws s) = normalize_ws s /\
  (normalize_ws s = [] <-> split s = []).
Proof.
  assert (Hsplit : split (normalize_ws s) = split s).
  { unfold normalize_ws at 1. apply split_join, split_words. }
  split; [exact Hsplit|]. split.
  - unfold normalize_ws at 1. now rewrite Hsplit.
  - split.
    + intros H. rewrite <- Hsplit, H. reflexivity.
    + intros H. unfold normalize_ws. now rewrite H.
Qed.

Lemma firstn_Forall {A} (P : A -> Prop) (k : nat) (l : list A) :
  Forall P l -> Forall P (firstn k l).
Proof.
  intros H. revert k. induction H as [|x l Hx _ IH]; intros [|k]; simpl;
    constructor; auto.
Qed.

Lemma slice_Forall {A} (P : A -> Prop) (l : list A) (lo hi : Z) :
  Forall P l -> Forall P (slice l lo hi).
Proof.
  intros H. unfold slice. apply firstn_Forall.
  rewrite <- (firstn_skipn (Z.to_nat (clamp_index (len l) lo)) l) in H.
  now apply Forall_app in H as [_ H].
Qed.

(** The [text] of a dictionary and the [name] of a symbol record hold no
    whitespace character other than the plain space, so no line feed and no
    tabulation, whatever the source and whatever the limit of the text.
    Moreover a name, cut at its spaces, gives no empty piece: it has no
    space at its start or end and no two spaces in a row. *)
Theorem printed_text_has_plain_spaces W n source_bytes max_text :
  only_plain_spaces (node_text W n source_bytes max_text) /\
  only_plain_spaces (child_text W source_bytes n) /\
  (child_text W source_bytes n = [] \/
   Forall (fun w => w <> []) (pieces (child_text W source_bytes n))).
Proof.
  split; [|split].
  - unfold node_text.
    destruct (len _ >? max_text).
    + apply Forall_app; split.
      * apply slice_Forall, normalize_ws_plain.
      * repeat constructor; discriminate.
    + apply normalize_ws_plain.
  - apply normalize_ws_plain.
  - unfold child_text, normalize_ws.
    set (raw := decode_utf8_replace W _).
    destruct (split raw) as [|w ws] eqn:E; [now left|].
    right. rewrite pieces_join.
    + pose proof (split_words raw) as H. rewrite E in H.
      eapply Forall_impl; [|exact H].
      intros x [Hx _] ->. discriminate.
    + discriminate.
    + pose proof (split_words raw) as H. rewrite E in H.
      eapply Forall_impl; [|exact H]. now intros x [_ Hx].
Qed.

(** ** The test on the type of a child *)

Lemma starts_with_spec (needle hay : str) :
  starts_with needle hay = true <-> exists post, hay = needle ++ post.
Proof.
  revert hay. induction needle as [|x needle IH]; intros hay; simpl.
  - split; [intros _; now exists hay|reflexivity].
  - destruct hay as [|y hay].
    + split; [discriminate|intros [post H]; discriminate].
    + unfold char_eqb. rewrite andb_true_iff, N.eqb_eq, IH. split.
      * intros [-> [post ->]]. now exists post.
      * intros [post [= -> ->]]. split; [reflexivity|now exists post].
Qed.

Lemma contains_spec (needle hay : str) :
  contains needle hay = true <-> exists pre post, hay = pre ++ needle ++ post.
Proof.
  induction hay as [|y hay IH].
  - cbn [contains]. rewrite orb_false_r, starts_with_spec. split.
    + intros [post H]. now exists [], post.
    + intros (pre & post & H). destruct pre as [|p pre]; [|discriminate].
      now exists post.
  - cbn [contains]. rewrite orb_true_iff, starts_with_spec, IH. split.
    + intros [[post H]|(pre & post & ->)].
      * now exists [], post.
      * now exists (y :: pre), post.
    + intros (pre & post & H). destruct pre as [|p pre].
      * left. now exists post.
      * right. injection H as _ H. now exists pre, post.
Qed.

(** A child is a candidate for the name exactly when its type has [name]
    or [identifier] somewhere inside it, so [field_identifier] and
    [property_name] are candidates too; a child without a type is none. *)
Theorem name_child_is_substring_test (c : Node) :
  name_child c = true <->
  exists t pre post,
    type c = Some t /\
    (t = pre ++ lit "name" ++ post \/ t = pre ++ lit "identifier" ++ post).
Proof.
  unfold name_child. rewrite orb_true_iff, !contains_spec.
  destruct (type c) as [t|]; simpl.
  - split.
    + intros [(pre & post & H)|(pre & post & H)];
        exists t, pre, post; auto.
    + intros (t' & pre & post & [= <-] & [H|H]);
        [left|right]; now exists pre, post.
  - split.
    + intros [(pre & post & H)|(pre & post & H)];
        destruct pre; discriminate.
    + intros (t & pre & post & H & _). discriminate.
Qed.

Example field_identifier_is_candidate :
  name_child (Demo.leaf "field_identifier" true (0, 0) (0, 1) 0 1) = true /\
  name_child (Demo.leaf "property_name" true (0, 0) (0, 1) 0 1) = true /\
  name_child (Demo.leaf "parameters" true (0, 0) (0, 1) 0 1) = false.
Proof. repeat split; vm_compute; reflexivity. Qed.

(** ** The message of a failed import *)

Lemma one_line_two_feeds (x y : str) :
  one_line (x ++ newline ++ y ++ newline) = false.
Proof.
  assert (E : x ++ newline ++ y ++ newline = (x ++ newline ++ y) ++ [10%N])
    by now rewrite <- !app_assoc.
  rewrite E. unfold one_line. rewrite rev_app_distr.
  cbn [rev app]. rewrite N.eqb_refl. cbn [andb].
  apply negb_false_iff, existsb_exists. exists 10%N. split; [|reflexivity].
  apply -> in_rev. apply in_or_app. right. now left.
Qed.

Lemma replace_char_removes (a b : char) (s : str) :
  a <> b -> ~ In a (replace_char a b s).
Proof.
  intros Hab Hin. unfold replace_char in Hin.
  apply in_map_iff in Hin as (c & Hc & _).
  unfold char_eqb in Hc. destruct (N.eqb c a) eqn:E.
  - now subst.
  - apply N.eqb_neq in E. now subst.
Qed.

(** When the grammar package cannot be imported, the run exits with code 4
    and its message names the module [tree_sitter_<lang>], proposes the
    package of that name with every underscore turned into a hyphen, and
    carries the text of the import error on a second line: the message is
    not a single line. *)
Theorem import_failure_message W a stdin e :
  import_module W (lit "tree_sitter_" ++ lang a) = Raised e ->
  exists msg,
    main W a stdin = Exited 4 [] [msg] /\
    msg = lit "Error loading language: "
          ++ lit "Could not import language package 'tree_sitter_" ++ lang a
          ++ lit "'. Install it with: pip install tree-sitter-"
          ++ replace_char 95%N 45%N (lang a)
          ++ newline ++ lit "Underlying error: " ++ exn_msg e ++ newline /\
    ~ In 95%N (replace_char 95%N 45%N (lang a)) /\
    one_line msg = false.
Proof.
  intros Himp. eexists. split; [|split; [reflexivity|split]].
  - unfold main, load_language, load_language_from_package.
    rewrite Himp. cbn [exn_msg]. do 2 f_equal.
    unfold replace_char. rewrite map_app.
    change (List.map (fun c : char => if char_eqb c 95%N then 45%N else c)
              (lit "tree_sitter_"))
      with (lit "tree-sitter-").
    change (lit "Could not import language package 'tree_sitter_")
      with (lit "Could not import language package '" ++ lit "tree_sitter_").
    change (lit "'. Install it with: pip install tree-sitter-")
      with (lit "'. Install it with: pip install " ++ lit "tree-sitter-").
    repeat rewrite <- app_assoc. reflexivity.
  - apply replace_char_removes. discriminate.
  - etransitivity; [|apply (one_line_two_feeds
                  (lit "Error loading language: "
                   ++ lit "Could not import language package 'tree_sitter_"
                   ++ lang a
                   ++ lit "'. Install it with: pip install tree-sitter-"
                   ++ replace_char 95%N 45%N (lang a))
                  (lit "Underlying error: " ++ exn_msg e))].
    f_equal. repeat rewrite <- app_assoc. reflexivity.
Qed.

Lemma import_failure_message_witness :
  exists msg,
    main (Demo.world Demo.foo_parse)
      {| lang := lit "c_sharp"; cmd := node_at; args := [] |} (Ok [])
    = Exited 4 [] [msg] /\
    msg = lit "Error loading language: "
          ++ lit "Could not import language package 'tree_sitter_"
          ++ lang {| lang := lit "c_sharp"; cmd := node_at; args := [] |}
          ++ lit "'. Install it with: pip install tree-sitter-"
          ++ replace_char 95%N 45%N
               (lang {| lang := lit "c_sharp"; cmd := node_at; args := [] |})
          ++ newline ++ lit "Underlying error: "
          ++ exn_msg (Demo.no_module (lit "tree_sitter_c_sharp")) ++ newline /\
    ~ In 95%N (replace_char 95%N 45%N
                 (lang {| lang := lit "c_sharp"; cmd := node_at; args := [] |})) /\
    one_line msg = false.
Proof.
  apply (import_failure_message (Demo.world Demo.foo_parse)
           {| lang := lit "c_sharp"; cmd := node_at; args := [] |} (Ok [])
           (Demo.no_module (lit "tree_sitter_c_sharp"))).
  vm_compute; reflexivity.
Defined.

(** ** Byte ranges *)

(** [source_bytes[start:end]] is always a part of the buffer, never an
    error. With offsets inside the buffer it is the [end - start] bytes
    that follow the first [start]; with offsets that are not negative and
    an end that is not after the start, or with a start at or after the end
    of the buffer, it is empty. A negative offset counts from the end of
    the buffer, and from its start when it reaches before it. *)
Theorem slice_is_part_of_buffer {A} (l : list A) (lo hi : Z) :
  (exists pre post, l = pre ++ slice l lo hi ++ post) /\
  len (slice l lo hi) <= len l /\
  (0 <= lo <= hi /\ hi <= len l ->
   slice l lo hi = firstn (Z.to_nat (hi - lo)) (skipn (Z.to_nat lo) l) /\
   len (slice l lo hi) = hi - lo) /\
  (0 <= hi <= lo -> slice l lo hi = []) /\
  (len l <= lo -> slice l lo hi = []) /\
  (hi < 0 -> slice l lo hi = slice l lo (Z.max 0 (hi + len l))) /\
  (lo < 0 -> slice l lo hi = slice l (Z.max 0 (lo + len l)) hi).
Proof.
  unfold slice, clamp_index, len.
  set (n := Z.of_nat (List.length l)).
  assert (Hn : 0 <= n) by (subst n; lia).
  split; [|split; [|split; [|split; [|split; [|split]]]]].
  - set (a := Z.to_nat (if lo <? 0 then Z.max 0 (lo + n) else Z.min lo n)).
    set (b := Z.to_nat _).
    exists (firstn a l), (skipn b (skipn a l)).
    rewrite (firstn_skipn b (skipn a l)). now rewrite firstn_skipn.
  - rewrite length_firstn, length_skipn. lia.
  - intros [[Hlo Hle] Hhi].
    replace (lo <? 0) with false by (symmetry; apply Z.ltb_ge; lia).
    replace (hi <? 0) with false by (symmetry; apply Z.ltb_ge; lia).
    rewrite !Z.min_l by lia. split; [reflexivity|].
    rewrite length_firstn, length_skipn. subst n. lia.
  - intros [Hhi Hle].
    replace (lo <? 0) with false by (symmetry; apply Z.ltb_ge; lia).
    replace (hi <? 0) with false by (symmetry; apply Z.ltb_ge; lia).
    replace (Z.to_nat (Z.min hi n - Z.min lo n)) with 0%nat by lia.
    reflexivity.
  - intros Hlo.
    replace (lo <? 0) with false by (symmetry; apply Z.ltb_ge; lia).
    rewrite (Z.min_r lo) by lia.
    rewrite skipn_all2 by (subst n; lia). apply firstn_nil.
  - intros Hhi.
    replace (hi <? 0) with true by (symmetry; apply Z.ltb_lt; lia).
    replace (Z.max 0 (hi + n) <? 0) with false
      by (symmetry; apply Z.ltb_ge; lia).
    rewrite (Z.min_l (Z.max 0 (hi + n))) by lia. reflexivity.
  - intros Hlo.
    replace (lo <? 0) with true by (symmetry; apply Z.ltb_lt; lia).
    replace (Z.max 0 (lo + n) <? 0) with false
      by (symmetry; apply Z.ltb_ge; lia).
    rewrite (Z.min_l (Z.max 0 (lo + n))) by lia. reflexivity.
Qed.

(** ** The shape of the records *)

Definition keys (j : json) : list string :=
  match j with
  | JObj fs => List.map fst fs
  | _ => []
  end.

Lemma ast_entry_keys W source_bytes (n : Node) :
  keys (ast_entry W source_bytes n)
  = [ "type"; "named"; "start_point"; "end_point"; "start_byte"; "end_byte";
      "text" ]%string.
Proof.
  unfold ast_entry, node_to_dict, node_fields.
  destruct (unpack_points n) as [[[srow scol] erow] ecol]. reflexivity.
Qed.

(** The documents have a fixed shape. The [ast] document holds one object
    for each node of the tree, at any depth, each with the six items of a
    node and its text; a symbol record has the six items and the name, and
    no text; a fold record has the type, the two points and the two
    offsets, and neither the [named] flag nor a text. *)
Theorem record_shapes W (root : Node) (source_bytes : bytes) :
  List.length (ast_entries (walk_node W root source_bytes))
  = List.length (preorder root) /\
  Forall (fun e => keys e = [ "type"; "named"; "start_point"; "end_point";
                              "start_byte"; "end_byte"; "text" ]%string)
    (ast_entries (walk_node W root source_bytes)) /\
  keys (walk_node W root source_bytes)
  = [ "type"; "named"; "start_point"; "end_point"; "start_byte"; "end_byte";
      "text"; "children" ]%string /\
  keys (symbol_record W root source_bytes)
  = [ "type"; "named"; "start_point"; "end_point"; "start_byte"; "end_byte";
      "name" ]%string /\
  (forall j, fold_record root = Ok j ->
     keys j = [ "type"; "start_point"; "end_point"; "start_byte";
                "end_byte" ]%string).
Proof.
  rewrite ast_entries_walk. split; [|split; [|split; [|split]]].
  - apply length_map.
  - apply Forall_map, Forall_forall. intros n _. apply ast_entry_keys.
  - destruct root as [ty nm sp ep sb eb cs]. cbn [walk_node].
    unfold node_to_dict, node_fields.
    destruct (unpack_points _) as [[[srow scol] erow] ecol]. reflexivity.
  - unfold symbol_record, node_to_dict, node_fields.
    destruct (unpack_points root) as [[[srow scol] erow] ecol]. reflexivity.
  - intros j. unfold fold_record.
    destruct (start_point root) as [[sr sc]|]; [|discriminate].
    destruct (end_point root) as [[er ec]|]; [|discriminate].
    intros [= <-]. reflexivity.
Qed.

(** ** The name is searched among the direct children only *)

(** The name of a symbol depends on nothing but the types and the byte
    offsets of the direct children of the node: what lies below them, and
    their points, play no part. *)
Theorem symbol_name_looks_at_direct_children W (cs cs' : list Node)
    (source_bytes : bytes) :
  List.map (fun c => (type c, start_byte c, end_byte c)) cs
  = List.map (fun c => (type c, start_byte c, end_byte c)) cs' ->
  symbol_name W cs source_bytes = symbol_name W cs' source_bytes.
Proof.
  revert cs'. induction cs as [|c cs IH]; intros [|c' cs'] E;
    try discriminate; [reflexivity|].
  simpl in E. injection E as Et Es Ee Ecs.
  cbn [symbol_name]. rewrite Et, Es, Ee, (IH cs' Ecs). reflexivity.
Qed.

Lemma symbol_name_looks_at_direct_children_witness :
  symbol_name (Demo.world Demo.foo_parse) (children Demo.foo_function)
    Demo.foo_source
  = symbol_name (Demo.world Demo.foo_parse)
      (List.map
         (fun c => mkNode (type c) false None None (start_byte c) (end_byte c) [])
         (children Demo.foo_function))
      Demo.foo_source.
Proof.
  apply (symbol_name_looks_at_direct_children (Demo.world Demo.foo_parse)).
  reflexivity.
Defined.
